(** * agecache: an LRU cache with jittered age-based expiration

    A shallow embedding of [cache.go] and the properties of its
    operations.  Each Go method of [*Cache] is a computation in a small
    state-and-failure monad over the program state: the [Cache] struct,
    the store of the [container/list] elements it points to, and the
    outside world on which the user's callbacks act. *)

From stdpp Require Import gmap strings list fin_maps.
From Stdlib Require Import ZArith Lia.

Local Open Scope Z_scope.

(** ** Machine integers, durations and instants *)

(** Go's [int64] (and [int] on a 64-bit platform): two's complement,
    arithmetic wraps around. *)
Definition minInt64 : Z := - 2 ^ 63.
Definition maxInt64 : Z := 2 ^ 63 - 1.

Definition wrap64 (z : Z) : Z := (z + 2 ^ 63) mod 2 ^ 64 - 2 ^ 63.

Definition add64 (a b : Z) : Z := wrap64 (a + b).
Definition sub64 (a b : Z) : Z := wrap64 (a - b).
Definition neg64 (a : Z) : Z := wrap64 (- a).
(** [x++] *)
Definition incr64 (a : Z) : Z := add64 a 1.

Definition int64 (z : Z) : Prop := minInt64 ≤ z ≤ maxInt64.

(** [time.Duration] is an [int64] count of nanoseconds.  An instant
    ([time.Time]) is a count of nanoseconds on an unbounded line. *)
Definition Duration := Z.
Definition Time := Z.

(** [t.Sub(u)]: the duration t-u, saturated at the largest and smallest
    [Duration]. *)
Definition Time_Sub (t u : Time) : Duration :=
  Z.max minInt64 (Z.min maxInt64 (t - u)).

(** [time.Since(t)] is [time.Now().Sub(t)]. *)
Definition Since (now t : Time) : Duration := Time_Sub now t.

(** [t.Add(d)] *)
Definition Time_Add (t : Time) (d : Duration) : Time := t + d.

(** ** Stats *)

Module Stats.

Record t : Type := mk {
  Capacity : Z;
  Count : Z;
  Sets : Z;
  Gets : Z;
  Hits : Z;
  Misses : Z;
  Evictions : Z
}.

Definition Delta (stats previous : t) : t :=
  {| Capacity := Capacity stats;
     Count := Count stats;
     Sets := sub64 (Sets stats) (Sets previous);
     Gets := sub64 (Gets stats) (Gets previous);
     Hits := sub64 (Hits stats) (Hits previous);
     Misses := sub64 (Misses stats) (Misses previous);
     Evictions := sub64 (Evictions stats) (Evictions previous) |}.

(** The counters, which start at zero and count up. *)
Definition counters (s : t) : list Z :=
  [Sets s; Gets s; Hits s; Misses s; Evictions s].

End Stats.

(** ** The random number generator *)

(** [RandGenerator]: an interface with the one method [Int63n], which
    advances the generator's state. *)
Class RandGenerator (R : Type) := Int63n : R → Z → Z * R.

(** The contract of [Int63n] in [math/rand]: for a positive bound the
    result lies in [0, n). *)
Definition rand_in_range `{RandGenerator R} (r : R) : Prop :=
  ∀ n, 0 < n → 0 ≤ (Int63n r n).1 < n.

(** Go's zero value of a type. *)
Class Zero (A : Type) := zero : A.

Inductive ExpirationType : Set :=
  | PassiveExpration
  | ActiveExpiration.

(** A failing [error] carries its message; [nil] is [None]. *)
Definition error := option string.

(** The outcome of a function that may panic. *)
Inductive result (A : Type) : Type :=
  | Ok (a : A)
  | Panic (msg : string).
Arguments Ok {A} a.
Arguments Panic {A} msg.

(** ** [container/list], as the cache uses it *)

(** The address of a [*list.Element]. *)
Definition Elem := positive.

(** A [list.List] holds its elements in order, front first.  An element
    belongs to at most one list; [e.list == l] is membership. *)
Definition List_Len (l : list Elem) : Z := Z.of_nat (length l).
Definition List_PushFront (e : Elem) (l : list Elem) : list Elem := e :: l.
Definition List_Remove (e : Elem) (l : list Elem) : list Elem :=
  filter (λ x, x ≠ e) l.
Definition List_MoveToFront (e : Elem) (l : list Elem) : list Elem :=
  if decide (e ∈ l) then e :: List_Remove e l else l.
Definition List_Back (l : list Elem) : option Elem := last l.
Definition List_Init : list Elem := [].

Section agecache.

Context {K : Type} `{Countable K} {V : Type} `{!Zero V}.
(** The generator's state and the world the callbacks act on. *)
Context {R : Type} `{!RandGenerator R} {W : Type}.

(** A callback [func(key K, value V)] and its effect on the world. *)
Definition Callback : Type := K → V → W → W.

Record Config : Type := {
  Capacity : Z;
  MaxAge : Duration;
  MinAge : Duration;
  ExpirationType' : ExpirationType;
  ExpirationInterval : Duration;
  OnEviction : option Callback;
  OnExpiration : option Callback
}.

Record cacheEntry : Type := {
  key : K;
  value : V;
  timestamp : Time
}.

Record Cache : Type := {
  capacity : Z;
  minAge : Duration;
  maxAge : Duration;
  expirationType : ExpirationType;
  expirationInterval : Duration;
  onEviction : option Callback;
  onExpiration : option Callback;
  sets : Z;
  gets : Z;
  hits : Z;
  misses : Z;
  evictions : Z;
  items : gmap K Elem;
  evictionList : list Elem;
  rand : R
}.

(** The program state: the cache struct, the elements allocated so far
    with the entry each one points to (an element's [Value] is fixed at
    [PushFront]; the entry's fields are updated in place), and the world
    outside. *)
Record State : Type := {
  cache : Cache;
  heap : gmap Elem cacheEntry;
  world : W
}.

(** Field updates. *)
Definition set_capacity (x : Z) (c : Cache) : Cache :=
  {| capacity := x; minAge := minAge c; maxAge := maxAge c;
     expirationType := expirationType c;
     expirationInterval := expirationInterval c;
     onEviction := onEviction c; onExpiration := onExpiration c;
     sets := sets c; gets := gets c; hits := hits c; misses := misses c;
     evictions := evictions c; items := items c;
     evictionList := evictionList c; rand := rand c |}.
Definition set_minAge (x : Duration) (c : Cache) : Cache :=
  {| capacity := capacity c; minAge := x; maxAge := maxAge c;
     expirationType := expirationType c;
     expirationInterval := expirationInterval c;
     onEviction := onEviction c; onExpiration := onExpiration c;
     sets := sets c; gets := gets c; hits := hits c; misses := misses c;
     evictions := evictions c; items := items c;
     evictionList := evictionList c; rand := rand c |}.
Definition set_maxAge (x : Duration) (c : Cache) : Cache :=
  {| capacity := capacity c; minAge := minAge c; maxAge := x;
     expirationType := expirationType c;
     expirationInterval := expirationInterval c;
     onEviction := onEviction c; onExpiration := onExpiration c;
     sets := sets c; gets := gets c; hits := hits c; misses := misses c;
     evictions := evictions c; items := items c;
     evictionList := evictionList c; rand := rand c |}.
Definition set_onEviction (x : option Callback) (c : Cache) : Cache :=
  {| capacity := capacity c; minAge := minAge c; maxAge := maxAge c;
     expirationType := expirationType c;
     expirationInterval := expirationInterval c;
     onEviction := x; onExpiration := onExpiration c;
     sets := sets c; gets := gets c; hits := hits c; misses := misses c;
     evictions := evictions c; items := items c;
     evictionList := evictionList c; rand := rand c |}.
Definition set_onExpiration (x : option Callback) (c : Cache) : Cache :=
  {| capacity := capacity c; minAge := minAge c; maxAge := maxAge c;
     expirationType := expirationType c;
     expirationInterval := expirationInterval c;
     onEviction := onEviction c; onExpiration := x;
     sets := sets c; gets := gets c; hits := hits c; misses := misses c;
     evictions := evictions c; items := items c;
     evictionList := evictionList c; rand := rand c |}.
Definition set_sets (x : Z) (c : Cache) : Cache :=
  {| capacity := capacity c; minAge := minAge c; maxAge := maxAge c;
     expirationType := expirationType c;
     expirationInterval := expirationInterval c;
     onEviction := onEviction c; onExpiration := onExpiration c;
     sets := x; gets := gets c; hits := hits c; misses := misses c;
     evictions := evictions c; items := items c;
     evictionList := evictionList c; rand := rand c |}.
Definition set_gets (x : Z) (c : Cache) : Cache :=
  {| capacity := capacity c; minAge := minAge c; maxAge := maxAge c;
     expirationType := expirationType c;
     expirationInterval := expirationInterval c;
     onEviction := onEviction c; onExpiration := onExpiration c;
     sets := sets c; gets := x; hits := hits c; misses := misses c;
     evictions := evictions c; items := items c;
     evictionList := evictionList c; rand := rand c |}.
Definition set_hits (x : Z) (c : Cache) : Cache :=
  {| capacity := capacity c; minAge := minAge c; maxAge := maxAge c;
     expirationType := expirationType c;
     expirationInterval := expirationInterval c;
     onEviction := onEviction c; onExpiration := onExpiration c;
     sets := sets c; gets := gets c; hits := x; misses := misses c;
     evictions := evictions c; items := items c;
     evictionList := evictionList c; rand := rand c |}.
Definition set_misses (x : Z) (c : Cache) : Cache :=
  {| capacity := capacity c; minAge := minAge c; maxAge := maxAge c;
     expirationType := expirationType c;
     expirationInterval := expirationInterval c;
     onEviction := onEviction c; onExpiration := onExpiration c;
     sets := sets c; gets := gets c; hits := hits c; misses := x;
     evictions := evictions c; items := items c;
     evictionList := evictionList c; rand := rand c |}.
Definition set_evictions (x : Z) (c : Cache) : Cache :=
  {| capacity := capacity c; minAge := minAge c; maxAge := maxAge c;
     expirationType := expirationType c;
     expirationInterval := expirationInterval c;
     onEviction := onEviction c; onExpiration := onExpiration c;
     sets := sets c; gets := gets c; hits := hits c; misses := misses c;
     evictions := x; items := items c;
     evictionList := evictionList c; rand := rand c |}.
Definition set_items (x : gmap K Elem) (c : Cache) : Cache :=
  {| capacity := capacity c; minAge := minAge c; maxAge := maxAge c;
     expirationType := expirationType c;
     expirationInterval := expirationInterval c;
     onEviction := onEviction c; onExpiration := onExpiration c;
     sets := sets c; gets := gets c; hits := hits c; misses := misses c;
     evictions := evictions c; items := x;
     evictionList := evictionList c; rand := rand c |}.
Definition set_evictionList (x : list Elem) (c : Cache) : Cache :=
  {| capacity := capacity c; minAge := minAge c; maxAge := maxAge c;
     expirationType := expirationType c;
     expirationInterval := expirationInterval c;
     onEviction := onEviction c; onExpiration := onExpiration c;
     sets := sets c; gets := gets c; hits := hits c; misses := misses c;
     evictions := evictions c; items := items c;
     evictionList := x; rand := rand c |}.
Definition set_rand (x : R) (c : Cache) : Cache :=
  {| capacity := capacity c; minAge := minAge c; maxAge := maxAge c;
     expirationType := expirationType c;
     expirationInterval := expirationInterval c;
     onEviction := onEviction c; onExpiration := onExpiration c;
     sets := sets c; gets := gets c; hits := hits c; misses := misses c;
     evictions := evictions c; items := items c;
     evictionList := evictionList c; rand := x |}.

Definition set_cache (x : Cache) (s : State) : State :=
  {| cache := x; heap := heap s; world := world s |}.
Definition set_heap (x : gmap Elem cacheEntry) (s : State) : State :=
  {| cache := cache s; heap := x; world := world s |}.
Definition set_world (x : W) (s : State) : State :=
  {| cache := cache s; heap := heap s; world := x |}.

(** ** The monad of cache operations

    A computation reads and updates the state and returns a result.  It
    yields [None] where the Go program would fault on a pointer that
    refers to no allocated element, which no Go execution produces. *)
Definition M (A : Type) : Type := State → option (A * State).

#[global] Instance M_ret : MRet M := λ A a s, Some (a, s).
#[global] Instance M_bind : MBind M := λ A B f m s,
  match m s with
  | Some (a, s') => f a s'
  | None => None
  end.

(** Read the cache struct. *)
Definition this : M Cache := λ s, Some (cache s, s).
(** Assign to fields of the cache struct. *)
Definition update (f : Cache → Cache) : M unit :=
  λ s, Some ((), set_cache (f (cache s)) s).
(** [element.Value.( *cacheEntry)], read through the pointer. *)
Definition deref (element : Elem) : M cacheEntry :=
  λ s, match heap s !! element with
       | Some entry => Some (entry, s)
       | None => None
       end.
(** Assignment to the fields of the entry of an element. *)
Definition assign (element : Elem) (entry : cacheEntry) : M unit :=
  λ s, Some ((), set_heap (<[element := entry]> (heap s)) s).
(** A new element, at an address not in use. *)
Definition alloc (entry : cacheEntry) : M Elem :=
  λ s, let element := fresh (dom (heap s)) in
       Some (element, set_heap (<[element := entry]> (heap s)) s).
(** [if callback != nil { callback(k, v) }], as it acts on the world. *)
Definition call (callback : option Callback) (k : K) (v : V) (w : W) : W :=
  match callback with
  | Some f => f k v w
  | None => w
  end.
Definition invoke (callback : option Callback) (k : K) (v : V) : M unit :=
  λ s, Some ((), set_world (call callback k v (world s)) s).

(** ** The cache *)

Definition Len_of (c : Cache) : Z := List_Len (evictionList c).

(** [New].  The generator, seeded from the clock in the source, is an
    argument.  The goroutine of active expiration is not started here:
    its steps are those of [deleteExpired] below. *)
Definition New (config : Config) (seed : R) : result Cache :=
  if decide (Capacity config ≤ 0) then
    Panic "Must supply a positive config.Capacity"
  else if decide (MaxAge config < 0) then
    Panic "Must supply a zero or positive config.MaxAge"
  else if decide (MinAge config < 0) then
    Panic "Must supply a zero or positive config.MinAge"
  else if decide (MinAge config > 0 ∧ MinAge config > MaxAge config) then
    Panic "config.MinAge must be less than or equal to config.MaxAge"
  else
    let minAge := if decide (MinAge config = 0) then MaxAge config
                  else MinAge config in
    let interval := if decide (ExpirationInterval config ≤ 0)
                    then MaxAge config else ExpirationInterval config in
    Ok {| capacity := Capacity config;
          maxAge := MaxAge config;
          minAge := minAge;
          expirationType := ExpirationType' config;
          expirationInterval := interval;
          onEviction := OnEviction config;
          onExpiration := OnExpiration config;
          sets := 0; gets := 0; hits := 0; misses := 0; evictions := 0;
          items := ∅;
          evictionList := List_Init;
          rand := seed |}.

(** The state of a program that has just built the cache [c]. *)
Definition start (c : Cache) (w : W) : State :=
  {| cache := c; heap := ∅; world := w |}.

(** [getTimestamp]; [now] is what [time.Now()] returns. *)
Definition getTimestamp (now : Time) : M Time :=
  c ← this;
  if decide (minAge c = maxAge c) then mret now
  else
    let jitter := sub64 (maxAge c) (minAge c) in
    let '(randVal, r) := Int63n (rand c) jitter in
    update (set_rand r);;
    mret (Time_Add now (neg64 randVal)).

Definition deleteElement (element : Elem) : M cacheEntry :=
  update (λ c, set_evictionList (List_Remove element (evictionList c)) c);;
  entry ← deref element;
  update (λ c, set_items (delete (key entry) (items c)) c);;
  mret entry.

Definition evictOldest : M bool :=
  c ← this;
  match List_Back (evictionList c) with
  | None => mret false
  | Some element =>
      update (λ c, set_evictions (incr64 (evictions c)) c);;
      entry ← deleteElement element;
      c ← this;
      invoke (onEviction c) (key entry) (value entry);;
      mret true
  end.

(** [Set] *)
Definition Set_ (now : Time) (k : K) (v : V) : M bool :=
  update (λ c, set_sets (incr64 (sets c)) c);;
  ts ← getTimestamp now;
  c ← this;
  match items c !! k with
  | Some element =>
      update (λ c, set_evictionList
                     (List_MoveToFront element (evictionList c)) c);;
      entry ← deref element;
      assign element {| key := key entry; value := v; timestamp := ts |};;
      mret false
  | None =>
      element ← alloc {| key := k; value := v; timestamp := ts |};
      update (λ c, set_evictionList
                     (List_PushFront element (evictionList c)) c);;
      update (λ c, set_items (<[k := element]> (items c)) c);;
      c ← this;
      let evict := bool_decide (Len_of c > capacity c) in
      (if evict then evictOldest else mret false);;
      mret evict
  end.

(** [Get]; the entry's fields are read through the pointer after the
    list and the counters have changed, which leaves them as they were
    when the pointer was taken. *)
Definition Get (now : Time) (k : K) : M (V * bool) :=
  update (λ c, set_gets (incr64 (gets c)) c);;
  c ← this;
  match items c !! k with
  | Some element =>
      entry ← deref element;
      if decide (maxAge c = 0 ∨ Since now (timestamp entry) ≤ maxAge c)
      then
        update (λ c, set_evictionList
                       (List_MoveToFront element (evictionList c)) c);;
        update (λ c, set_hits (incr64 (hits c)) c);;
        mret (value entry, true)
      else
        deleteElement element;;
        update (λ c, set_misses (incr64 (misses c)) c);;
        c ← this;
        invoke (onExpiration c) (key entry) (value entry);;
        mret (zero, false)
  | None =>
      update (λ c, set_misses (incr64 (misses c)) c);;
      mret (zero, false)
  end.

Definition Has (k : K) : M bool :=
  c ← this;
  match items c !! k with
  | Some _ => mret true
  | None => mret false
  end.

Definition Peek (k : K) : M (V * bool) :=
  c ← this;
  match items c !! k with
  | Some element =>
      entry ← deref element;
      mret (value entry, true)
  | None => mret (zero, false)
  end.

Definition Remove (k : K) : M bool :=
  c ← this;
  match items c !! k with
  | Some element => deleteElement element;; mret true
  | None => mret false
  end.

Definition EvictOldest : M bool := evictOldest.

Definition Len : M Z := c ← this; mret (Len_of c).

(** One round of the [range] loop of [Clear]: the key is produced only
    if it is still in the map, with the element it is bound to. *)
Definition Clear_visit (k : K) : M unit :=
  c ← this;
  match items c !! k with
  | Some val => deleteElement val;; mret ()
  | None => mret ()
  end.

Fixpoint Clear_range (order : list K) : M unit :=
  match order with
  | [] => mret ()
  | k :: order => Clear_visit k;; Clear_range order
  end.

(** [Clear].  Go leaves the order in which [range] visits a map
    unspecified: [order] lists the keys of [items] in the order of the
    visit. *)
Definition Clear (order : list K) : M unit :=
  Clear_range order;;
  update (set_evictionList List_Init).

(** The loop of [OrderedKeys], from the element [Back()] on through
    [Prev()]: [elements] are those still to visit, front first. *)
Fixpoint OrderedKeys_loop (elements : list Elem) : M (list K) :=
  match elements with
  | [] => mret []
  | element :: elements =>
      keys ← OrderedKeys_loop elements;
      entry ← deref element;
      mret (keys ++ [key entry])
  end.

(** [OrderedKeys].  The slice is made with the length of [items]: where
    the list is longer the write [keys[i]] is out of range and panics;
    where it is shorter the slice ends in zero values.  On the states
    the cache reaches the two lengths agree; the model returns the keys
    written. *)
Definition OrderedKeys : M (result (list K)) :=
  c ← this;
  if decide (length (evictionList c) ≤ size (items c))%nat then
    keys ← OrderedKeys_loop (evictionList c);
    mret (Ok keys)
  else mret (Panic "index out of range").

Definition SetMaxAge (d : Duration) : M error :=
  c ← this;
  if decide (d < 0) then
    mret (Some "Must supply a zero or positive maxAge")
  else if decide (d < minAge c) then
    mret (Some "Must supply a maxAge greater than or equal to minAge")
  else
    update (set_maxAge d);;
    mret None.

Definition SetMinAge (d : Duration) : M error :=
  c ← this;
  if decide (d < 0) then
    mret (Some "Must supply a zero or positive minAge")
  else if decide (d > maxAge c) then
    mret (Some "Must supply a minAge lesser than or equal to maxAge")
  else
    (if decide (d = 0) then update (λ c, set_minAge (maxAge c) c)
     else update (set_minAge d));;
    mret None.

(** The methods [OnEviction] and [OnExpiration], which share their names
    with the fields of [Config]. *)
Definition Cache_OnEviction (callback : option Callback) : M unit :=
  update (set_onEviction callback).

Definition Cache_OnExpiration (callback : option Callback) : M unit :=
  update (set_onExpiration callback).

Definition Cache_Stats : M Stats.t :=
  c ← this;
  mret {| Stats.Capacity := capacity c;
          Stats.Count := Len_of c;
          Stats.Sets := sets c;
          Stats.Gets := gets c;
          Stats.Hits := hits c;
          Stats.Misses := misses c;
          Stats.Evictions := evictions c |}.

(** The loop of [Resize]: [i] rounds are left. *)
Fixpoint Resize_loop (i : nat) : M unit :=
  match i with
  | O => mret ()
  | S i =>
      successful ← evictOldest;
      if successful : bool then Resize_loop i else mret ()
  end.

Definition Resize (n : Z) : M error :=
  if decide (n ≤ 0) then
    mret (Some "must supply a positive capacity to Resize")
  else
    c0 ← this;
    let c := capacity c0 in
    update (set_capacity n);;
    Resize_loop (Z.to_nat (sub64 c n));;
    mret None.

(** The staleness test, as [deleteExpired] writes it. *)
Definition expired (c : Cache) (now : Time) (entry : cacheEntry) : Prop :=
  maxAge c > 0 ∧ Since now (timestamp entry) > maxAge c.

#[global] Instance expired_dec c now entry : Decision (expired c now entry).
Proof. unfold expired. apply _. Defined.

(** One round of the loop of [deleteExpired], the part under the lock;
    the goroutine that [New] starts runs these rounds, over the keys that
    [Keys] returned, at each tick. *)
Definition deleteExpired_visit (now : Time) (k : K) : M unit :=
  c ← this;
  match items c !! k with
  | Some element =>
      entry ← deref element;
      if decide (expired c now entry) then
        deleteElement element;;
        c ← this;
        invoke (onExpiration c) (key entry) (value entry)
      else mret ()
  | None => mret ()
  end.

(** ** The representation invariant and the reachable states *)

(** The entry the index leads to from a key. *)
Definition entryOf (k : K) (s : State) : option cacheEntry :=
  items (cache s) !! k ≫= λ e, heap s !! e.

(** The keys of the entries in the recency list, front first. *)
Definition entryKeys (s : State) : list K :=
  omap (λ e, key <$> heap s !! e) (evictionList (cache s)).

(** The index [m] and the recency list [l] describe the same entries
    of the store [h]: the list has no element twice, each of its
    elements is allocated, and the index binds a key to an element
    exactly when the element is in the list and holds an entry with
    that key. *)
Record rep (m : gmap K Elem) (l : list Elem) (h : gmap Elem cacheEntry)
  : Prop := {
  rep_NoDup : NoDup l;
  rep_heap : ∀ e, e ∈ l → is_Some (h !! e);
  rep_items : ∀ k e, m !! k = Some e ↔ e ∈ l ∧ key <$> h !! e = Some k
}.

Definition wf (s : State) : Prop :=
  rep (items (cache s)) (evictionList (cache s)) (heap s).

(** What [getTimestamp] draws from the generator, the timestamp it
    returns at the instant [now], and the generator it leaves. *)
Definition jitterDraw (c : Cache) : Z * R :=
  Int63n (rand c) (sub64 (maxAge c) (minAge c)).
Definition stamp (now : Time) (c : Cache) : Time :=
  if decide (minAge c = maxAge c) then now
  else Time_Add now (neg64 (jitterDraw c).1).
Definition drawn (c : Cache) : R :=
  if decide (minAge c = maxAge c) then rand c else (jitterDraw c).2.

(** The cache after the first two statements of [Set]. *)
Definition stamped (c : Cache) : Cache :=
  set_rand (drawn c) (set_sets (incr64 (sets c)) c).

(** The state after [Set] found [k] bound to [e], which holds [ent]. *)
Definition touched (now : Time) (v : V) (e : Elem) (ent : cacheEntry)
    (s : State) : State :=
  set_heap
    (<[e := {| key := key ent; value := v;
               timestamp := stamp now (cache s) |}]> (heap s))
    (set_cache
       (set_evictionList (List_MoveToFront e (evictionList (cache s)))
          (stamped (cache s)))
       s).

(** The state after [Set] put the new key [k] in, before it looks at
    the capacity. *)
Definition inserted (now : Time) (k : K) (v : V) (s : State) : State :=
  let e := fresh (dom (heap s)) in
  set_heap
    (<[e := {| key := k; value := v;
               timestamp := stamp now (cache s) |}]> (heap s))
    (set_cache
       (set_items (<[k := e]> (items (cache s)))
          (set_evictionList (List_PushFront e (evictionList (cache s)))
             (stamped (cache s))))
       s).

(** The states after [Get]: a hit on the element [e], a miss on a key
    that is not there, and a miss on [e] whose entry [ent] expired. *)
Definition hit (e : Elem) (s : State) : State :=
  set_cache
    (set_hits (incr64 (hits (cache s)))
       (set_evictionList (List_MoveToFront e (evictionList (cache s)))
          (set_gets (incr64 (gets (cache s))) (cache s))))
    s.
Definition missed (s : State) : State :=
  set_cache
    (set_misses (incr64 (misses (cache s)))
       (set_gets (incr64 (gets (cache s))) (cache s)))
    s.
Definition lapsed (e : Elem) (ent : cacheEntry) (s : State) : State :=
  set_world (call (onExpiration (cache s)) (key ent) (value ent) (world s))
    (set_cache
       (set_misses (incr64 (misses (cache s)))
          (set_items (delete (key ent) (items (cache s)))
             (set_evictionList (List_Remove e (evictionList (cache s)))
                (set_gets (incr64 (gets (cache s))) (cache s)))))
       s).

(** The cache after [deleteElement] of [e], which holds [ent]. *)
Definition deleted (e : Elem) (ent : cacheEntry) (c : Cache) : Cache :=
  set_items (delete (key ent) (items c))
    (set_evictionList (List_Remove e (evictionList c)) c).

(** The state after [evictOldest] removed [e], which holds [ent]. *)
Definition evicted (e : Elem) (ent : cacheEntry) (s : State) : State :=
  set_world (call (onEviction (cache s)) (key ent) (value ent) (world s))
    (set_cache
       (deleted e ent (set_evictions (incr64 (evictions (cache s))) (cache s)))
       s).

(** The calls of the public operations named by the invariant, with
    what the environment supplies: the clock's reading and, for [Clear],
    the order in which [range] visits the map. *)
Inductive Op : Type :=
  | OpSet (now : Time) (k : K) (v : V)
  | OpGet (now : Time) (k : K)
  | OpRemove (k : K)
  | OpEvictOldest
  | OpClear (order : list K)
  | OpResize (n : Z)
  | OpSetMaxAge (d : Duration)
  | OpSetMinAge (d : Duration)
  | OpOnEviction (callback : option Callback)
  | OpOnExpiration (callback : option Callback)
  | OpDeleteExpired (now : Time) (k : K).

Definition discard {A} (m : M A) : M unit := m;; mret ().

Definition exec (op : Op) : M unit :=
  match op with
  | OpSet now k v => discard (Set_ now k v)
  | OpGet now k => discard (Get now k)
  | OpRemove k => discard (Remove k)
  | OpEvictOldest => discard EvictOldest
  | OpClear order => Clear order
  | OpResize n => discard (Resize n)
  | OpSetMaxAge d => discard (SetMaxAge d)
  | OpSetMinAge d => discard (SetMinAge d)
  | OpOnEviction callback => Cache_OnEviction callback
  | OpOnExpiration callback => Cache_OnExpiration callback
  | OpDeleteExpired now k => deleteExpired_visit now k
  end.

(** [range] over a map visits each of its keys once. *)
Definition admissible (op : Op) (s : State) : Prop :=
  match op with
  | OpClear order => order ≡ₚ elements (dom (items (cache s)))
  | _ => True
  end.

Inductive reachable (config : Config) (seed : R) (w : W) : State → Prop :=
  | reachable_New c :
      New config seed = Ok c → reachable config seed w (start c w)
  | reachable_step op s s' :
      reachable config seed w s →
      admissible op s →
      exec op s = Some ((), s') →
      reachable config seed w s'.

(** A computation that returns on every well-formed state, in a
    well-formed state. *)
Definition preserves {A} (m : M A) : Prop :=
  ∀ s, wf s → ∃ a s', m s = Some (a, s') ∧ wf s'.

(** The state of a program that called [New], and has the cache if the
    call did not panic. *)
Definition built (config : Config) (seed : R) (w : W) : option State :=
  match New config seed with
  | Ok c => Some (start c w)
  | Panic _ => None
  end.

(** A sequence of [Set]s, each at its own instant. *)
Fixpoint Sets (calls : list (Time * K * V)) : M unit :=
  match calls with
  | [] => mret ()
  | (now, k, v) :: calls => Set_ now k v;; Sets calls
  end.

(** ** [Keys] and the expiration sweep *)

Context `{!Zero K}.

(** The loop of [Keys]: [order] lists the keys that [range] has yet to
    produce, [i] is the index of the next write into the slice. *)
Fixpoint Keys_range (order : list K) (i : nat) (keys : list K)
  : result (list K) :=
  match order with
  | [] => Ok keys
  | k :: order =>
      if decide (i < length keys)%nat
      then Keys_range order (S i) (<[i := k]> keys)
      else Panic "index out of range"
  end.

(** [Keys].  The slice is made of zero values, as many as [items] has
    keys; [order] is the order in which [range] produces the keys. *)
Definition Keys (order : list K) : M (result (list K)) :=
  c ← this;
  mret (Keys_range order 0 (replicate (size (items c)) zero)).

(** The loop of [deleteExpired] over the keys that [Keys] returned;
    [clock i] is what the clock reads in round [i]. *)
Fixpoint deleteExpired_range (clock : nat → Time) (i : nat) (keys : list K)
  : M unit :=
  match keys with
  | [] => mret ()
  | k :: keys =>
      deleteExpired_visit (clock i) k;;
      deleteExpired_range clock (S i) keys
  end.

(** [deleteExpired], with no call of another goroutine between its
    rounds. *)
Definition deleteExpired (order : list K) (clock : nat → Time)
  : M (result unit) :=
  keys ← Keys order;
  match keys with
  | Ok keys => deleteExpired_range clock 0 keys;; mret (Ok ())
  | Panic msg => mret (Panic msg)
  end.

(** The value with which the key [k] expires at the instant [now], if
    it is there and its entry is stale then. *)
Definition stale (k : K) (now : Time) (s : State) : option V :=
  ent ← entryOf k s;
  if decide (expired (cache s) now ent) then Some (value ent) else None.

(** The keys among [keys] that are stale in [s], each at the instant of
    its round, the first of which is round [i], with their values. *)
Fixpoint expirations (s : State) (clock : nat → Time) (i : nat)
    (keys : list K) : list (K * V) :=
  match keys with
  | [] => []
  | k :: keys =>
      match stale k (clock i) s with
      | Some v => [(k, v)]
      | None => []
      end ++ expirations s clock (S i) keys
  end.

(** The counters of the cache, and the settings that [Resize],
    [SetMaxAge] and [SetMinAge] change. *)
Definition counters_of (c : Cache) : list Z :=
  [sets c; gets c; hits c; misses c; evictions c].
Definition settings_of (c : Cache) : Z * Duration * Duration :=
  (capacity c, minAge c, maxAge c).

(** The calls whose integer arguments are values of Go's [int]. *)
Definition Op_int (op : Op) : Prop :=
  match op with
  | OpResize n => n ≤ maxInt64
  | _ => True
  end.

(** The states reached when the capacities given are values of [int]. *)
Inductive reachable_int (config : Config) (seed : R) (w : W)
  : State → Prop :=
  | reachable_int_New c :
      Capacity config ≤ maxInt64 →
      New config seed = Ok c → reachable_int config seed w (start c w)
  | reachable_int_step op s s' :
      reachable_int config seed w s →
      admissible op s → Op_int op →
      exec op s = Some ((), s') →
      reachable_int config seed w s'.

End agecache.

Arguments Callback : clear implicits.
Arguments Config : clear implicits.
Arguments cacheEntry : clear implicits.
Arguments Cache K {_ _} V R W.
Arguments State K {_ _} V R W.
Arguments M K {_ _} V R W A.

(** ** A cache of integers under string keys

    The generator replays a list of draws, each reduced to the range asked
    for; the callbacks record their calls. *)

#[global] Instance replay_RandGenerator : RandGenerator (list Z) := λ r n,
  match r with
  | [] => (0, [])
  | x :: r => (x `mod` n, r)
  end.

#[global] Instance Z_Zero : Zero Z := 0.

#[global] Instance string_Zero : Zero string := EmptyString.

Inductive Call : Set :=
  | Evicted (k : string) (v : Z)
  | Expired (k : string) (v : Z).

Definition demo_config (cap : Z) (maxA minA : Duration)
  : Config string Z (list Call) :=
  {| Capacity := cap;
     MaxAge := maxA;
     MinAge := minA;
     ExpirationType' := PassiveExpration;
     ExpirationInterval := 0;
     OnEviction := Some (λ k v w, w ++ [Evicted k v]);
     OnExpiration := Some (λ k v w, w ++ [Expired k v]) |}.

(** The state after [New] with [demo_config] and after the calls of [Set]
    that follow, all of which return. *)
Definition demo (cap : Z) (maxA minA : Duration) (seed : list Z)
    (calls : list (Time * string * Z))
  : option (State string Z (list Z) (list Call)) :=
  s ← built (demo_config cap maxA minA) seed [];
  snd <$> Sets calls s.

Ltac mrun :=
  cbv beta iota zeta delta
    [mbind M_bind mret M_ret this update deref assign alloc invoke discard];
  cbn [cache heap world set_cache set_heap set_world].

Ltac crack := repeat (case_match; simplify_eq; cbn in * ).

(** * Properties *)

(** ** Integers *)

Lemma wrap64_id z : int64 z → wrap64 z = z.
Proof.
  unfold int64, minInt64, maxInt64, wrap64. intros Hz.
  rewrite Z.mod_small; lia.
Qed.

Lemma wrap64_int64 z : int64 (wrap64 z).
Proof.
  unfold int64, minInt64, maxInt64, wrap64.
  pose proof (Z.mod_pos_bound (z + 2 ^ 63) (2 ^ 64)). lia.
Qed.

Lemma sub64_exact a b : int64 (a - b) → sub64 a b = a - b.
Proof. apply wrap64_id. Qed.

Lemma incr64_exact a : minInt64 ≤ a < maxInt64 → incr64 a = a + 1.
Proof.
  intros Ha. apply wrap64_id. unfold int64, minInt64, maxInt64 in *. lia.
Qed.

Lemma Since_exact now t : int64 (now - t) → Since now t = now - t.
Proof. unfold Since, Time_Sub, int64. lia. Qed.

(** ** Lists of elements *)

Lemma List_Remove_elem_of e x l : x ∈ List_Remove e l ↔ x ∈ l ∧ x ≠ e.
Proof. unfold List_Remove. rewrite list_elem_of_filter. tauto. Qed.

Lemma List_Remove_NoDup e l : NoDup l → NoDup (List_Remove e l).
Proof. apply NoDup_filter. Qed.

Lemma List_Remove_notin e l : e ∉ l → List_Remove e l = l.
Proof.
  unfold List_Remove. induction l as [|x l IH]; [done|].
  rewrite not_elem_of_cons. intros [Hne Hl].
  rewrite filter_cons_True by done. by rewrite IH.
Qed.

Lemma List_Remove_app e l1 l2 :
  List_Remove e (l1 ++ l2) = List_Remove e l1 ++ List_Remove e l2.
Proof. apply filter_app. Qed.

Lemma List_Remove_back e l : NoDup (l ++ [e]) → List_Remove e (l ++ [e]) = l.
Proof.
  intros [Hl [Hd _]]%NoDup_app.
  rewrite List_Remove_app, List_Remove_notin.
  - unfold List_Remove. rewrite filter_cons_False, filter_nil by naive_solver.
    apply app_nil_r.
  - intros He. apply (Hd e He). by left.
Qed.

Lemma List_Remove_length e l :
  NoDup l → e ∈ l → S (length (List_Remove e l)) = length l.
Proof.
  induction l as [|x l IH]; intros Hnd He; [by apply elem_of_nil in He|].
  apply NoDup_cons in Hnd as [Hx Hnd]. unfold List_Remove in *.
  destruct (decide (x = e)) as [->|Hne].
  - rewrite filter_cons_False by naive_solver.
    fold (List_Remove e l). by rewrite List_Remove_notin.
  - rewrite filter_cons_True by done. simpl. f_equal. apply IH; [done|].
    apply elem_of_cons in He as [->|He]; done.
Qed.

Lemma List_Back_Some l e : List_Back l = Some e ↔ ∃ l', l = l' ++ [e].
Proof. apply last_Some. Qed.

Lemma List_Back_None l : List_Back l = None ↔ l = [].
Proof. apply last_None. Qed.

Lemma List_Back_elem_of l e : List_Back l = Some e → e ∈ l.
Proof. intros [l' ->]%List_Back_Some. set_solver. Qed.

Lemma List_MoveToFront_in e l :
  e ∈ l → List_MoveToFront e l = e :: List_Remove e l.
Proof. intros He. unfold List_MoveToFront. by rewrite decide_True. Qed.

Lemma List_MoveToFront_elem_of e x l : x ∈ List_MoveToFront e l ↔ x ∈ l.
Proof.
  unfold List_MoveToFront. destruct (decide (e ∈ l)); [|done].
  rewrite elem_of_cons, List_Remove_elem_of.
  destruct (decide (x = e)) as [->|]; naive_solver.
Qed.

Lemma List_MoveToFront_NoDup e l : NoDup l → NoDup (List_MoveToFront e l).
Proof.
  intros Hnd. unfold List_MoveToFront. destruct (decide (e ∈ l)); [|done].
  apply NoDup_cons. split; [|by apply List_Remove_NoDup].
  rewrite List_Remove_elem_of. naive_solver.
Qed.

Lemma List_MoveToFront_length e l :
  NoDup l → length (List_MoveToFront e l) = length l.
Proof.
  intros Hnd. unfold List_MoveToFront. destruct (decide (e ∈ l)); [|done].
  simpl. by apply List_Remove_length.
Qed.

(** ** Running the operations *)

Section agecache_run.

Context {K : Type} `{Countable K} {V : Type} `{!Zero V}.
Context {R : Type} `{!RandGenerator R} {W : Type}.

Implicit Types (s : State K V R W) (c : Cache K V R W).
Implicit Types (e : Elem) (ent : cacheEntry K V) (k : K) (v : V).
Implicit Types (m : gmap K Elem) (l : list Elem).
Implicit Types (h : gmap Elem (cacheEntry K V)).

Lemma deleteElement_run e ent s :
  heap s !! e = Some ent →
  deleteElement e s = Some (ent, set_cache (deleted e ent (cache s)) s).
Proof. intros He. unfold deleteElement. mrun. by rewrite He. Qed.

Lemma evictOldest_run e ent s :
  List_Back (evictionList (cache s)) = Some e →
  heap s !! e = Some ent →
  evictOldest s = Some (true, evicted e ent s).
Proof.
  intros Hb He. unfold evictOldest. mrun. rewrite Hb.
  rewrite deleteElement_run with (ent := ent) by done. reflexivity.
Qed.

Lemma evictOldest_empty s :
  evictionList (cache s) = [] → evictOldest s = Some (false, s).
Proof. intros Hl. unfold evictOldest. mrun. by rewrite Hl. Qed.

(** *** The invariant under the changes of index, list and store *)

Lemma rep_unique m l h k e1 e2 :
  rep m l h → e1 ∈ l → e2 ∈ l →
  key <$> h !! e1 = Some k → key <$> h !! e2 = Some k → e1 = e2.
Proof.
  intros Hr H1 H2 Hk1 Hk2.
  assert (m !! k = Some e1) as E1 by (apply (rep_items _ _ _ Hr); done).
  assert (m !! k = Some e2) as E2 by (apply (rep_items _ _ _ Hr); done).
  congruence.
Qed.

Lemma rep_empty h : rep ∅ [] h.
Proof.
  split; [constructor|by intros e ?%elem_of_nil|].
  intros k e. rewrite lookup_empty. split; [done|].
  by intros [?%elem_of_nil _].
Qed.

Lemma rep_delete m l h e ent :
  rep m l h → e ∈ l → h !! e = Some ent →
  rep (delete (key ent) m) (List_Remove e l) h.
Proof.
  intros Hr He Hent. split.
  - apply List_Remove_NoDup, Hr.
  - intros x [Hx _]%List_Remove_elem_of. by apply (rep_heap _ _ _ Hr).
  - intros k x. rewrite List_Remove_elem_of, lookup_delete_Some.
    rewrite (rep_items _ _ _ Hr). split.
    + intros [Hk [Hx Hkx]]. split_and!; [done| |done].
      intros ->. rewrite Hent in Hkx. simpl in Hkx. congruence.
    + intros [[Hx Hne] Hkx]. split_and!; [|done..].
      intros <-. apply Hne.
      apply (rep_unique m l h (key ent) x e); [done..|].
      by rewrite Hent.
Qed.

Lemma rep_move m l h e : rep m l h → rep m (List_MoveToFront e l) h.
Proof.
  intros Hr. split.
  - apply List_MoveToFront_NoDup, Hr.
  - intros x Hx%List_MoveToFront_elem_of. by apply (rep_heap _ _ _ Hr).
  - intros k x. rewrite List_MoveToFront_elem_of. apply Hr.
Qed.

Lemma rep_assign m l h e ent v ts :
  rep m l h → h !! e = Some ent →
  rep m l (<[e := {| key := key ent; value := v; timestamp := ts |}]> h).
Proof.
  intros Hr Hent.
  assert (∀ x, key <$> (<[e := {| key := key ent; value := v;
                                 timestamp := ts |}]> h) !! x
               = key <$> h !! x) as Hkey.
  { intros x. destruct (decide (e = x)) as [<-|Hne].
    - by rewrite lookup_insert_eq, Hent.
    - by rewrite lookup_insert_ne. }
  split.
  - apply Hr.
  - intros x Hx. apply (rep_heap _ _ _ Hr) in Hx.
    rewrite <- fmap_is_Some with (f := key) in *. by rewrite Hkey.
  - intros k x. rewrite Hkey. apply Hr.
Qed.

Lemma rep_insert m l h e k v ts :
  rep m l h → m !! k = None → h !! e = None →
  rep (<[k := e]> m) (List_PushFront e l)
      (<[e := {| key := k; value := v; timestamp := ts |}]> h).
Proof.
  intros Hr Hk He. unfold List_PushFront.
  assert (e ∉ l) as Hel.
  { intros Hin. apply (rep_heap _ _ _ Hr) in Hin as [? ?]. congruence. }
  split.
  - apply NoDup_cons. split; [done|apply Hr].
  - intros x [->|Hx]%elem_of_cons.
    + rewrite lookup_insert_eq. eauto.
    + rewrite lookup_insert_ne by (intros ->; done).
      by apply (rep_heap _ _ _ Hr).
  - intros k' x. rewrite elem_of_cons.
    destruct (decide (e = x)) as [<-|Hne].
    + rewrite lookup_insert_eq. simpl.
      destruct (decide (k = k')) as [<-|Hkk].
      * rewrite lookup_insert_eq. naive_solver.
      * rewrite lookup_insert_ne by done. split.
        -- intros [Hin _]%(rep_items _ _ _ Hr). done.
        -- intros [_ ?]. congruence.
    + rewrite (lookup_insert_ne h) by done.
      destruct (decide (k = k')) as [<-|Hkk].
      * rewrite lookup_insert_eq. split; [congruence|].
        intros [[?|Hin] Hkx]; [congruence|].
        assert (m !! k = Some x) by (apply (rep_items _ _ _ Hr); done).
        congruence.
      * rewrite lookup_insert_ne by done.
        rewrite (rep_items _ _ _ Hr). naive_solver.
Qed.

(** *** The operations on a well-formed state *)

Lemma wf_lookup s k e :
  wf s → items (cache s) !! k = Some e →
  e ∈ evictionList (cache s) ∧ ∃ ent, heap s !! e = Some ent ∧ key ent = k.
Proof.
  intros Hwf [Hin Hk]%(rep_items _ _ _ Hwf). split; [done|].
  destruct (heap s !! e) as [ent|]; [|done].
  exists ent. split; [done|]. simpl in Hk. congruence.
Qed.

Lemma wf_deref s e :
  wf s → e ∈ evictionList (cache s) → ∃ ent, heap s !! e = Some ent.
Proof. intros Hwf He. by apply (rep_heap _ _ _ Hwf) in He as [ent ?]; eauto. Qed.

Lemma getTimestamp_run now s :
  getTimestamp now s
  = Some (stamp now (cache s),
          set_cache (set_rand (drawn (cache s)) (cache s)) s).
Proof.
  unfold getTimestamp, stamp, drawn, jitterDraw. mrun.
  destruct s as [c h w]. destruct c. cbn.
  destruct (decide _); [done|]. by destruct (Int63n _ _).
Qed.

Lemma bind_run {A B} (m : M K V R W A) (f : A → M K V R W B) s a s' :
  m s = Some (a, s') → (m ≫= f) s = f a s'.
Proof. intros Hm. unfold mbind, M_bind. by rewrite Hm. Qed.

Lemma Set_run_present now k v e ent s :
  items (cache s) !! k = Some e → heap s !! e = Some ent →
  Set_ now k v s = Some (false, touched now v e ent s).
Proof.
  intros Hk He. unfold Set_. mrun. rewrite getTimestamp_run.
  cbn. rewrite Hk. cbn. by rewrite He.
Qed.

Lemma Set_run_absent now k v s :
  items (cache s) !! k = None →
  Set_ now k v s
  = if bool_decide (Len_of (cache (inserted now k v s)) > capacity (cache s))
    then match evictOldest (inserted now k v s) with
         | Some (_, s') => Some (true, s')
         | None => None
         end
    else Some (false, inserted now k v s).
Proof.
  intros Hk. unfold Set_. mrun. rewrite getTimestamp_run.
  cbn. rewrite Hk. cbn. fold (inserted now k v s).
  destruct (bool_decide _); [|done].
  by destruct (evictOldest _) as [[? ?]|].
Qed.

Lemma Get_run_absent now k s :
  items (cache s) !! k = None →
  Get now k s = Some ((zero, false), missed s).
Proof. intros Hk. unfold Get. mrun. cbn. by rewrite Hk. Qed.

Lemma Get_run_hit now k e ent s :
  items (cache s) !! k = Some e → heap s !! e = Some ent →
  maxAge (cache s) = 0 ∨ Since now (timestamp ent) ≤ maxAge (cache s) →
  Get now k s = Some ((value ent, true), hit e s).
Proof.
  intros Hk He Hage. unfold Get. mrun. cbn. rewrite Hk. cbn. rewrite He.
  by rewrite decide_True.
Qed.

Lemma Get_run_expired now k e ent s :
  items (cache s) !! k = Some e → heap s !! e = Some ent →
  ¬ (maxAge (cache s) = 0 ∨ Since now (timestamp ent) ≤ maxAge (cache s)) →
  Get now k s = Some ((zero, false), lapsed e ent s).
Proof.
  intros Hk He Hage. unfold Get. mrun. cbn. rewrite Hk. cbn. rewrite He.
  rewrite decide_False by done.
  unfold deleteElement. mrun. by rewrite He.
Qed.

(** *** Well-formed states stay well-formed *)

Lemma wf_touched now k v e ent s :
  wf s → items (cache s) !! k = Some e → heap s !! e = Some ent →
  wf (touched now v e ent s).
Proof.
  intros Hwf Hk He. unfold wf, touched. cbn.
  apply rep_assign; [|done]. by apply rep_move.
Qed.

Lemma wf_inserted now k v s :
  wf s → items (cache s) !! k = None → wf (inserted now k v s).
Proof.
  intros Hwf Hk. unfold wf, inserted. cbn. apply rep_insert; [done..|].
  apply not_elem_of_dom, is_fresh.
Qed.

Lemma wf_evicted e ent s :
  wf s → e ∈ evictionList (cache s) → heap s !! e = Some ent →
  wf (evicted e ent s).
Proof. intros Hwf Hin He. unfold wf, evicted. cbn. by apply rep_delete. Qed.

Lemma wf_deleted e ent s :
  wf s → e ∈ evictionList (cache s) → heap s !! e = Some ent →
  wf (set_cache (deleted e ent (cache s)) s).
Proof. intros Hwf Hin He. unfold wf. cbn. by apply rep_delete. Qed.

Lemma wf_hit e s : wf s → wf (hit e s).
Proof. intros Hwf. unfold wf, hit. cbn. by apply rep_move. Qed.

Lemma wf_missed s : wf s → wf (missed s).
Proof. done. Qed.

Lemma wf_lapsed e ent s :
  wf s → e ∈ evictionList (cache s) → heap s !! e = Some ent →
  wf (lapsed e ent s).
Proof. intros Hwf Hin He. unfold wf, lapsed. cbn. by apply rep_delete. Qed.

Lemma wf_start c w : items c = ∅ → evictionList c = [] → wf (start c w).
Proof. intros Hm Hl. unfold wf, start. cbn. rewrite Hm, Hl. apply rep_empty. Qed.

(** What [evictOldest] does on a well-formed state: nothing on an empty
    list, and otherwise it removes the element at the back. *)
Lemma evictOldest_wf s :
  wf s →
  (evictionList (cache s) = [] ∧ evictOldest s = Some (false, s))
  ∨ (∃ l e ent,
       evictionList (cache s) = l ++ [e] ∧ heap s !! e = Some ent
       ∧ items (cache s) !! key ent = Some e
       ∧ evictOldest s = Some (true, evicted e ent s)
       ∧ evictionList (cache (evicted e ent s)) = l
       ∧ wf (evicted e ent s)).
Proof.
  intros Hwf.
  destruct (List_Back (evictionList (cache s))) as [e|] eqn:Hb.
  - right. pose proof (List_Back_elem_of _ _ Hb) as Hin.
    destruct (wf_deref s e Hwf Hin) as [ent He].
    apply List_Back_Some in Hb as Hl. destruct Hl as [l Hl].
    exists l, e, ent. split_and!; [done..| | | |].
    + apply (rep_items _ _ _ Hwf). by rewrite He.
    + by apply evictOldest_run.
    + cbn. rewrite Hl. apply List_Remove_back. rewrite <- Hl. apply Hwf.
    + by apply wf_evicted.
  - left. apply List_Back_None in Hb. split; [done|].
    by apply evictOldest_empty.
Qed.

Lemma preserves_ret {A} (a : A) : preserves (K:=K) (V:=V) (R:=R) (W:=W) (mret a).
Proof. intros s Hwf. by exists a, s. Qed.

Lemma preserves_bind {A B} (m : M K V R W A) (f : A → M K V R W B) :
  preserves m → (∀ a, preserves (f a)) → preserves (m ≫= f).
Proof.
  intros Hm Hf s Hwf. destruct (Hm s Hwf) as (a & s1 & Hrun & Hwf1).
  rewrite (bind_run _ _ _ _ _ Hrun). by apply Hf.
Qed.

Lemma preserves_this : preserves (K:=K) (V:=V) (R:=R) (W:=W) this.
Proof. intros s Hwf. by exists (cache s), s. Qed.

Lemma preserves_update (f : Cache K V R W → Cache K V R W) :
  (∀ c, items (f c) = items c) →
  (∀ c, evictionList (f c) = evictionList c) →
  preserves (update f).
Proof.
  intros Hm Hl s Hwf. eexists _, _. split; [done|].
  unfold wf. cbn. by rewrite Hm, Hl.
Qed.

Lemma preserves_evictOldest :
  preserves (K:=K) (V:=V) (R:=R) (W:=W) evictOldest.
Proof.
  intros s Hwf. destruct (evictOldest_wf s Hwf) as
    [[_ Hrun]|(l & e & ent & _ & _ & _ & Hrun & _ & Hwf')]; eauto.
Qed.

Lemma preserves_Set now k v : preserves (W:=W) (Set_ now k v).
Proof.
  intros s Hwf. destruct (items (cache s) !! k) as [e|] eqn:Hk.
  - destruct (wf_lookup s k e Hwf Hk) as (Hin & ent & He & _).
    rewrite (Set_run_present now k v e ent) by done.
    eauto using wf_touched.
  - rewrite Set_run_absent by done.
    pose proof (wf_inserted now k v s Hwf Hk) as Hwf1.
    destruct (bool_decide _); [|by eauto].
    destruct (preserves_evictOldest _ Hwf1) as (b & s' & -> & Hwf').
    eauto.
Qed.

Lemma preserves_Get now k : preserves (R:=R) (W:=W) (Get now k).
Proof.
  intros s Hwf. destruct (items (cache s) !! k) as [e|] eqn:Hk.
  - destruct (wf_lookup s k e Hwf Hk) as (Hin & ent & He & _).
    destruct (decide (maxAge (cache s) = 0
                      ∨ Since now (timestamp ent) ≤ maxAge (cache s))).
    + rewrite (Get_run_hit now k e ent) by done. eauto using wf_hit.
    + rewrite (Get_run_expired now k e ent) by done. eauto using wf_lapsed.
  - rewrite Get_run_absent by done. eauto using wf_missed.
Qed.

Lemma Remove_run_present k e ent s :
  items (cache s) !! k = Some e → heap s !! e = Some ent →
  Remove k s = Some (true, set_cache (deleted e ent (cache s)) s).
Proof.
  intros Hk He. unfold Remove. mrun. rewrite Hk.
  by rewrite (deleteElement_run e ent).
Qed.

Lemma Remove_run_absent k s :
  items (cache s) !! k = None → Remove k s = Some (false, s).
Proof. intros Hk. unfold Remove. mrun. by rewrite Hk. Qed.

Lemma preserves_Remove k : preserves (V:=V) (R:=R) (W:=W) (Remove k).
Proof.
  intros s Hwf. destruct (items (cache s) !! k) as [e|] eqn:Hk.
  - destruct (wf_lookup s k e Hwf Hk) as (Hin & ent & He & _).
    rewrite (Remove_run_present k e ent) by done. eauto using wf_deleted.
  - rewrite Remove_run_absent by done. eauto.
Qed.

Lemma Clear_visit_wf k s :
  wf s →
  ∃ s', Clear_visit k s = Some ((), s') ∧ wf s'
        ∧ items (cache s') = delete k (items (cache s))
        ∧ world s' = world s.
Proof.
  intros Hwf. unfold Clear_visit. mrun.
  destruct (items (cache s) !! k) as [e|] eqn:Hk.
  - destruct (wf_lookup s k e Hwf Hk) as (Hin & ent & He & Hkey).
    rewrite (deleteElement_run e ent) by done.
    eexists. split_and!; [done| |by cbn; rewrite Hkey|done].
    by apply wf_deleted.
  - exists s. by rewrite delete_id.
Qed.

Lemma Clear_range_wf order s :
  wf s →
  ∃ s', Clear_range order s = Some ((), s') ∧ wf s'
        ∧ dom (items (cache s')) = dom (items (cache s)) ∖ list_to_set order
        ∧ world s' = world s.
Proof.
  revert s. induction order as [|k order IH]; intros s Hwf.
  - exists s. split_and!; [done..| |done]. set_solver.
  - destruct (Clear_visit_wf k s Hwf) as (s1 & Hrun & Hwf1 & Hm & Hw).
    destruct (IH s1 Hwf1) as (s' & Hrun' & Hwf' & Hdom & Hw').
    exists s'. cbn [Clear_range]. rewrite (bind_run _ _ _ _ _ Hrun).
    split_and!; [done..| |congruence].
    rewrite Hdom, Hm, dom_delete_L. set_solver.
Qed.

(** [Clear] leaves index and list empty, and calls no callback. *)
Lemma Clear_wf order s :
  wf s → order ≡ₚ elements (dom (items (cache s))) →
  ∃ s', Clear order s = Some ((), s') ∧ wf s'
        ∧ items (cache s') = ∅ ∧ evictionList (cache s') = []
        ∧ world s' = world s.
Proof.
  intros Hwf Horder.
  destruct (Clear_range_wf order s Hwf) as (s' & Hrun & Hwf' & Hdom & Hw).
  assert (items (cache s') = ∅) as Hm.
  { apply dom_empty_inv_L. rewrite Hdom.
    apply set_eq. intros k. rewrite elem_of_difference, elem_of_list_to_set.
    rewrite Horder, elem_of_elements. set_solver. }
  unfold Clear. rewrite (bind_run _ _ _ _ _ Hrun). mrun.
  eexists. split_and!; [done| |done..].
  unfold wf. cbn. rewrite Hm. apply rep_empty.
Qed.

Lemma preserves_Resize_loop i :
  preserves (K:=K) (V:=V) (R:=R) (W:=W) (Resize_loop i).
Proof.
  induction i as [|i IH]; cbn [Resize_loop].
  - apply preserves_ret.
  - apply preserves_bind; [apply preserves_evictOldest|].
    intros []; [done|apply preserves_ret].
Qed.

Lemma preserves_Resize n : preserves (K:=K) (V:=V) (R:=R) (W:=W) (Resize n).
Proof.
  unfold Resize. destruct (decide (n ≤ 0)); [apply preserves_ret|].
  apply preserves_bind; [apply preserves_this|]. intros c0.
  apply preserves_bind; [by apply preserves_update|]. intros _.
  apply preserves_bind; [apply preserves_Resize_loop|]. intros _.
  apply preserves_ret.
Qed.

Lemma preserves_SetMaxAge d :
  preserves (K:=K) (V:=V) (R:=R) (W:=W) (SetMaxAge d).
Proof.
  unfold SetMaxAge. apply preserves_bind; [apply preserves_this|].
  intros c. repeat (destruct (decide _); [apply preserves_ret|]).
  apply preserves_bind; [by apply preserves_update|]. intros _.
  apply preserves_ret.
Qed.

Lemma preserves_SetMinAge d :
  preserves (K:=K) (V:=V) (R:=R) (W:=W) (SetMinAge d).
Proof.
  unfold SetMinAge. apply preserves_bind; [apply preserves_this|].
  intros c. repeat (destruct (decide _); [apply preserves_ret|]).
  apply preserves_bind; [|intros _; apply preserves_ret].
  destruct (decide _); by apply preserves_update.
Qed.

Lemma preserves_deleteExpired_visit now k :
  preserves (V:=V) (R:=R) (W:=W) (deleteExpired_visit now k).
Proof.
  intros s Hwf. unfold deleteExpired_visit. mrun.
  destruct (items (cache s) !! k) as [e|] eqn:Hk; [|by eauto].
  destruct (wf_lookup s k e Hwf Hk) as (Hin & ent & He & _).
  rewrite He. destruct (decide _); [|by eauto].
  rewrite (deleteElement_run e ent) by done. cbn.
  eexists _, _. split; [done|]. unfold wf. cbn. by apply rep_delete.
Qed.

Lemma preserves_discard {A} (m : M K V R W A) :
  preserves m → preserves (discard m).
Proof.
  intros Hm. unfold discard. apply preserves_bind; [done|].
  intros _. apply preserves_ret.
Qed.

(** Every operation returns on a well-formed state and keeps it
    well-formed. *)
Lemma exec_wf op s :
  wf s → admissible op s → ∃ s', exec op s = Some ((), s') ∧ wf s'.
Proof.
  intros Hwf Hadm.
  assert (∀ m : M K V R W unit, preserves m →
            ∃ s', m s = Some ((), s') ∧ wf s') as Hp.
  { intros m Hm. destruct (Hm s Hwf) as ([] & s' & ? & ?). eauto. }
  destruct op; cbn [exec].
  - apply Hp, preserves_discard, preserves_Set.
  - apply Hp, preserves_discard, preserves_Get.
  - apply Hp, preserves_discard, preserves_Remove.
  - apply Hp, preserves_discard, preserves_evictOldest.
  - destruct (Clear_wf order s Hwf Hadm) as (s' & ? & ? & _). eauto.
  - apply Hp, preserves_discard, preserves_Resize.
  - apply Hp, preserves_discard, preserves_SetMaxAge.
  - apply Hp, preserves_discard, preserves_SetMinAge.
  - by apply Hp, preserves_update.
  - by apply Hp, preserves_update.
  - apply Hp, preserves_deleteExpired_visit.
Qed.

Lemma New_empty config seed c :
  New config seed = Ok c →
  items c = ∅ ∧ evictionList c = [] ∧ capacity c = Capacity config
  ∧ 0 < capacity c ∧ maxAge c = MaxAge config ∧ 0 ≤ minAge c ≤ maxAge c
  ∧ minAge c = (if decide (MinAge config = 0) then MaxAge config
                else MinAge config)
  ∧ rand c = seed.
Proof.
  unfold New. repeat (destruct (decide _) as [?|?]; [done|]).
  intros [= <-]. cbn. split_and!; try done; try lia.
  - destruct (decide _); lia.
  - destruct (decide _); lia.
Qed.

Lemma reachable_wf config seed w s : reachable config seed w s → wf s.
Proof.
  induction 1 as [c Hnew|op s s' _ IH Hadm Hrun].
  - apply New_empty in Hnew as (? & ? & _). by apply wf_start.
  - destruct (exec_wf op s IH Hadm) as (s1 & Hrun1 & Hwf1). congruence.
Qed.

(** *** Index and list of a well-formed state *)

Lemma rep_entryKeys_length l h :
  (∀ e, e ∈ l → is_Some (h !! e)) →
  length (omap (λ e, key <$> h !! e) l) = length l.
Proof.
  induction l as [|e l IH]; intros Hh; [done|]. cbn.
  destruct (Hh e) as [ent He]; [by left|]. rewrite He. cbn.
  f_equal. apply IH. intros x Hx. apply Hh. by right.
Qed.

Lemma rep_entryKeys_NoDup m l h :
  rep m l h → NoDup (omap (λ e, key <$> h !! e) l).
Proof.
  intros Hr.
  assert (∀ l', l' ⊆ l → NoDup l' →
            NoDup (omap (λ e, key <$> h !! e) l')) as Hgen.
  { induction l' as [|e l' IH]; intros Hsub Hnd; [constructor|].
    apply NoDup_cons in Hnd as [He Hnd]. cbn.
    destruct (h !! e) as [ent|] eqn:Hent; cbn; [|apply IH; set_solver].
    apply NoDup_cons. split; [|apply IH; set_solver].
    intros (x & Hx & Hkx)%list_elem_of_omap. apply He.
    replace e with x; [done|].
    apply (rep_unique m l h (key ent) x e Hr); [set_solver..|done|].
    by rewrite Hent. }
  apply Hgen; [done|apply Hr].
Qed.

Lemma wf_dom s : wf s → dom (items (cache s)) = list_to_set (entryKeys s).
Proof.
  intros Hwf. apply set_eq. intros k.
  rewrite elem_of_dom, elem_of_list_to_set. unfold entryKeys.
  rewrite list_elem_of_omap. split.
  - intros [e He]. exists e. by apply (rep_items _ _ _ Hwf).
  - intros (e & Hin & Hk). exists e. by apply (rep_items _ _ _ Hwf).
Qed.

Lemma wf_entryKeys_length s :
  wf s → length (entryKeys s) = length (evictionList (cache s)).
Proof. intros Hwf. apply rep_entryKeys_length, Hwf. Qed.

Lemma wf_size s :
  wf s → size (items (cache s)) = length (evictionList (cache s)).
Proof.
  intros Hwf. rewrite <- wf_entryKeys_length by done.
  transitivity (size (dom (items (cache s)))); [symmetry; apply size_dom|].
  rewrite wf_dom by done.
  apply size_list_to_set. by eapply rep_entryKeys_NoDup.
Qed.

(** *** [Set] in detail *)

Lemma entryKeys_omap_insert l h e ent :
  e ∉ l →
  omap (λ x, key <$> (<[e := ent]> h) !! x) l = omap (λ x, key <$> h !! x) l.
Proof.
  intros He. apply list_omap_ext, Forall2_same_length_lookup.
  split; [done|]. intros i x y Hx Hy. assert (x = y) as <- by congruence.
  rewrite lookup_insert_ne; [done|].
  intros ->. apply He. by eapply list_elem_of_lookup_2.
Qed.

Lemma fresh_not_in_list s : wf s → fresh (dom (heap s)) ∉ evictionList (cache s).
Proof.
  intros Hwf Hin. apply (rep_heap _ _ _ Hwf) in Hin.
  apply elem_of_dom in Hin. by apply is_fresh in Hin.
Qed.

Lemma entryKeys_inserted now k v s :
  wf s → entryKeys (inserted now k v s) = k :: entryKeys s.
Proof.
  intros Hwf. unfold entryKeys, inserted, List_PushFront. cbn.
  rewrite lookup_insert_eq. cbn. f_equal.
  apply entryKeys_omap_insert. by apply fresh_not_in_list.
Qed.

Lemma entryKeys_back l e ent s :
  evictionList (cache s) = l ++ [e] → heap s !! e = Some ent →
  entryKeys s = omap (λ x, key <$> heap s !! x) l ++ [key ent].
Proof.
  intros Hl He. unfold entryKeys. rewrite Hl, omap_app. cbn.
  by rewrite He.
Qed.

(** [Set] on a key that is absent: the new entry goes to the front, and
    where the list has outgrown the capacity the entry at the back goes,
    which is another one. *)
Lemma Set_absent_wf now k v s :
  wf s → 0 < capacity (cache s) → items (cache s) !! k = None →
  let s1 := inserted now k v s in
  (Len_of (cache s) < capacity (cache s)
   ∧ Set_ now k v s = Some (false, s1))
  ∨ (capacity (cache s) ≤ Len_of (cache s)
     ∧ ∃ l e ent,
         evictionList (cache s) = l ++ [e] ∧ heap s !! e = Some ent
         ∧ items (cache s) !! key ent = Some e ∧ key ent ≠ k
         ∧ heap s1 !! e = Some ent
         ∧ Set_ now k v s = Some (true, evicted e ent s1)
         ∧ evictionList (cache (evicted e ent s1))
           = fresh (dom (heap s)) :: l
         ∧ wf (evicted e ent s1)).
Proof.
  intros Hwf Hcap Hk s1. pose proof (wf_inserted now k v s Hwf Hk) as Hwf1.
  rewrite Set_run_absent by done. fold s1.
  assert (Len_of (cache s1) = Len_of (cache s) + 1) as HLen.
  { unfold s1, inserted, Len_of, List_Len, List_PushFront. cbn. lia. }
  assert (capacity (cache s1) = capacity (cache s)) as Hc by done.
  destruct (bool_decide_reflect (Len_of (cache s1) > capacity (cache s)))
    as [Hgt|Hle]; [right|left; split; [lia|done]].
  split; [lia|].
  destruct (evictOldest_wf s1 Hwf1) as
    [[Hnil _]|(l1 & e & ent & Hl1 & He & Hke & Hrun & Hl' & Hwf')];
    [done|].
  rewrite Hrun.
  assert (evictionList (cache s1)
          = fresh (dom (heap s)) :: evictionList (cache s)) as Hl by done.
  pose proof (fresh_not_in_list s Hwf) as Hfresh.
  destruct l1 as [|x l1].
  { rewrite Hl in Hl1. cbn in Hl1. injection Hl1 as _ Hnil.
    unfold Len_of, List_Len in *. rewrite Hnil in *. cbn in *. lia. }
  rewrite Hl in Hl1. cbn in Hl1. injection Hl1 as Hx Hrest. subst x.
  assert (e ≠ fresh (dom (heap s))) as Hne.
  { intros ->. apply Hfresh. rewrite Hrest. set_solver. }
  assert (heap s !! e = Some ent) as He0.
  { unfold s1, inserted in He. cbn in He.
    by rewrite lookup_insert_ne in He. }
  assert (key ent ≠ k) as Hkne.
  { intros Heq. unfold s1, inserted in Hke. cbn in Hke.
    rewrite Heq, lookup_insert_eq in Hke. congruence. }
  exists l1, e, ent. split_and!; try done.
  unfold s1, inserted in Hke. cbn in Hke.
  by rewrite lookup_insert_ne in Hke.
Qed.

(** After [Set] the index leads from the key to an entry with the value
    and the timestamp of this call. *)
Lemma Set_entry now k v s :
  wf s → 0 < capacity (cache s) →
  ∃ b s', Set_ now k v s = Some (b, s') ∧ wf s'
    ∧ entryOf k s'
      = Some {| key := k; value := v; timestamp := stamp now (cache s) |}
    ∧ capacity (cache s') = capacity (cache s)
    ∧ minAge (cache s') = minAge (cache s)
    ∧ maxAge (cache s') = maxAge (cache s)
    ∧ rand (cache s') = drawn (cache s).
Proof.
  intros Hwf Hcap. destruct (items (cache s) !! k) as [e|] eqn:Hk.
  - destruct (wf_lookup s k e Hwf Hk) as (Hin & ent & He & Hkey).
    rewrite (Set_run_present now k v e ent) by done.
    eexists _, _. split_and!; [done|by eapply wf_touched| |done..].
    unfold entryOf, touched. cbn. rewrite Hk. cbn.
    by rewrite lookup_insert_eq, Hkey.
  - destruct (Set_absent_wf now k v s Hwf Hcap Hk) as
      [[_ ->]|(_ & l & e & ent & _ & _ & _ & Hne & _ & -> & _ & Hwf')].
    + eexists _, _. split_and!; [done|by apply wf_inserted| |done..].
      unfold entryOf, inserted. cbn. rewrite lookup_insert_eq. cbn.
      by rewrite lookup_insert_eq.
    + eexists _, _. split_and!; [done|done| |done..].
      unfold entryOf, evicted, inserted. cbn.
      rewrite lookup_delete_ne, lookup_insert_eq by done. cbn.
      by rewrite lookup_insert_eq.
Qed.

(** *** Reading the cache *)

Lemma OrderedKeys_loop_run l s :
  (∀ e, e ∈ l → is_Some (heap s !! e)) →
  OrderedKeys_loop l s
  = Some (reverse (omap (λ e, key <$> heap s !! e) l), s).
Proof.
  induction l as [|e l IH]; intros Hh; [done|].
  cbn [OrderedKeys_loop]. rewrite (bind_run _ _ _ _ _ (IH ltac:(set_solver))).
  destruct (Hh e) as [ent He]; [set_solver|].
  mrun. rewrite He. cbn [omap list_omap]. rewrite He.
  cbn [fmap option_fmap option_map]. by rewrite reverse_cons.
Qed.

Lemma OrderedKeys_run s :
  wf s → OrderedKeys s = Some (Ok (reverse (entryKeys s)), s).
Proof.
  intros Hwf. unfold OrderedKeys. mrun.
  rewrite decide_True by (by rewrite wf_size).
  rewrite OrderedKeys_loop_run; [done|]. apply Hwf.
Qed.

Lemma Has_run k s :
  Has k s = Some (bool_decide (is_Some (items (cache s) !! k)), s).
Proof. unfold Has. mrun. by destruct (items (cache s) !! k). Qed.

Lemma Peek_run_present k e ent s :
  items (cache s) !! k = Some e → heap s !! e = Some ent →
  Peek k s = Some ((value ent, true), s).
Proof. intros Hk He. unfold Peek. mrun. by rewrite Hk, He. Qed.

Lemma Peek_run_absent k s :
  items (cache s) !! k = None → Peek k s = Some ((zero, false), s).
Proof. intros Hk. unfold Peek. mrun. by rewrite Hk. Qed.

Lemma Peek_total k s : wf s → ∃ r, Peek k s = Some (r, s).
Proof.
  intros Hwf. destruct (items (cache s) !! k) as [e|] eqn:Hk.
  - destruct (wf_lookup s k e Hwf Hk) as (_ & ent & He & _).
    eauto using Peek_run_present.
  - eauto using Peek_run_absent.
Qed.

Lemma Peek_pure k s r s' : Peek k s = Some (r, s') → s' = s.
Proof.
  unfold Peek. mrun. destruct (items (cache s) !! k) as [e|]; [|congruence].
  destruct (heap s !! e); congruence.
Qed.

(** The test of [Get] is the negation of the staleness test when the
    maximum age is not negative. *)
Lemma expired_iff c now ent :
  0 ≤ maxAge c →
  expired c now ent
  ↔ ¬ (maxAge c = 0 ∨ Since now (timestamp ent) ≤ maxAge c).
Proof. unfold expired. lia. Qed.

Lemma incr64_neq a : incr64 a ≠ a.
Proof.
  unfold incr64, add64, wrap64. intros Heq.
  pose proof (Z.mod_pos_bound (a + 1 + 2 ^ 63) (2 ^ 64) ltac:(lia)) as Hb.
  assert ((a + 1 + 2 ^ 63) `mod` 2 ^ 64 = a + 2 ^ 63) as Hm by lia.
  assert ((a + 2 ^ 63) `mod` 2 ^ 64 = a + 2 ^ 63) as Hs
    by (apply Z.mod_small; lia).
  assert ((a + 1 + 2 ^ 63 - (a + 2 ^ 63)) `mod` 2 ^ 64 = 0) as Hz.
  { rewrite Zminus_mod, Hm, Hs. by rewrite Z.sub_diag. }
  replace (a + 1 + 2 ^ 63 - (a + 2 ^ 63)) with 1 in Hz by lia.
  done.
Qed.

Lemma rep_entryKeys_move m l h e ent :
  rep m l h → e ∈ l → h !! e = Some ent →
  omap (λ x, key <$> h !! x) (List_MoveToFront e l)
  = key ent :: filter (λ x, x ≠ key ent) (omap (λ x, key <$> h !! x) l).
Proof.
  intros Hr Hin He. rewrite List_MoveToFront_in by done.
  cbn [omap list_omap]. rewrite He. cbn [fmap option_fmap option_map].
  f_equal.
  assert (∀ l', l' ⊆ l →
            omap (λ x, key <$> h !! x) (List_Remove e l')
            = filter (λ x, x ≠ key ent) (omap (λ x, key <$> h !! x) l'))
    as Hgen; [|by apply Hgen].
  induction l' as [|x l' IH]; intros Hsub; [done|].
  destruct (rep_heap _ _ _ Hr x) as [entx Hx]; [set_solver|].
  unfold List_Remove in *. cbn [omap list_omap]. rewrite Hx.
  cbn [fmap option_fmap option_map].
  destruct (decide (x = e)) as [->|Hne].
  - assert (entx = ent) as -> by congruence.
    rewrite filter_cons_False, filter_cons_False by naive_solver.
    apply IH. set_solver.
  - assert (key entx ≠ key ent) as Hkne.
    { intros Heq. apply Hne.
      apply (rep_unique m l h (key ent) x e Hr); [set_solver|done| |].
      - rewrite Hx. cbn. by rewrite Heq.
      - by rewrite He. }
    rewrite filter_cons_True, filter_cons_True by done.
    cbn [omap list_omap]. rewrite Hx. cbn [fmap option_fmap option_map].
    f_equal. apply IH. set_solver.
Qed.

(** A [Get] that follows a [Set] of the same key finds the value, where
    the age of the timestamp that the [Set] gave is within the maximum
    age. *)
Lemma Set_Get_run now now' k v s :
  wf s → 0 < capacity (cache s) →
  maxAge (cache s) = 0
  ∨ Since now' (stamp now (cache s)) ≤ maxAge (cache s) →
  ∃ b s1 s2,
    Set_ now k v s = Some (b, s1)
    ∧ entryOf k s1
      = Some {| key := k; value := v; timestamp := stamp now (cache s) |}
    ∧ Get now' k s1 = Some ((v, true), s2).
Proof.
  intros Hwf Hcap Hage.
  destruct (Set_entry now k v s Hwf Hcap)
    as (b & s1 & Hrun & Hwf1 & Hent & _ & _ & Hmax & _).
  pose proof Hent as Hlook. unfold entryOf in Hlook.
  destruct (items (cache s1) !! k) as [e|] eqn:Hk; [|done].
  cbn in Hlook. exists b, s1. eexists. split; [done|]. split; [done|].
  rewrite (Get_run_hit now' k e _ s1 Hk Hlook); [done|].
  cbn. by rewrite Hmax.
Qed.

(** The age of a timestamp of [getTimestamp], for a generator that
    keeps to the contract of [Int63n]. *)
Lemma stamp_age now now' c :
  rand_in_range (rand c) →
  0 ≤ minAge c ≤ maxAge c → maxAge c ≤ maxInt64 →
  now ≤ now' → now' - now ≤ minAge c →
  Since now' (stamp now c) ≤ maxAge c.
Proof.
  intros Hrand Hages Hmax Hnow Hel.
  unfold stamp, Since, Time_Sub, Time_Add.
  destruct (decide (minAge c = maxAge c)) as [Heq|Hne].
  - unfold minInt64, maxInt64 in *. lia.
  - unfold jitterDraw.
    assert (sub64 (maxAge c) (minAge c) = maxAge c - minAge c) as ->.
    { apply sub64_exact. unfold int64, minInt64, maxInt64 in *. lia. }
    pose proof (Hrand (maxAge c - minAge c) ltac:(lia)) as Hr.
    destruct (Int63n (rand c) (maxAge c - minAge c)) as [r g]. cbn in *.
    assert (neg64 r = - r) as ->.
    { apply wrap64_id. unfold int64, minInt64, maxInt64 in *. lia. }
    unfold minInt64, maxInt64 in *. lia.
Qed.

(** The invariants of a sequence of [Set]s. *)
Lemma Sets_run calls s :
  wf s → 0 < capacity (cache s) →
  ∃ s', Sets calls s = Some ((), s') ∧ wf s'
    ∧ capacity (cache s') = capacity (cache s)
    ∧ minAge (cache s') = minAge (cache s)
    ∧ maxAge (cache s') = maxAge (cache s).
Proof.
  revert s. induction calls as [|[[now k] v] calls IH]; intros s Hwf Hcap.
  - by exists s.
  - destruct (Set_entry now k v s Hwf Hcap)
      as (b & s1 & Hrun & Hwf1 & _ & Hc & Hmin & Hmax & _).
    destruct (IH s1 Hwf1 ltac:(lia)) as (s' & Hrun' & Hwf' & ? & ? & ?).
    exists s'. cbn [Sets]. rewrite (bind_run _ _ _ _ _ Hrun).
    split_and!; [done..|congruence|congruence|congruence].
Qed.

(** *** [Resize] in general *)

(** The loop of [Resize] takes one element from the back in each round,
    as long as there is one. *)
Lemma Resize_loop_run i s :
  wf s →
  ∃ s', Resize_loop i s = Some ((), s') ∧ wf s'
    ∧ evictionList (cache s')
      = take (length (evictionList (cache s)) - i)%nat (evictionList (cache s))
    ∧ capacity (cache s') = capacity (cache s).
Proof.
  revert s. induction i as [|i IH]; intros s Hwf.
  - exists s. split_and!; [done..| |done].
    by rewrite Nat.sub_0_r, firstn_all.
  - cbn [Resize_loop].
    destruct (evictOldest_wf s Hwf) as
      [[Hnil Hrun]|(l & e & ent & Hl & _ & _ & Hrun & Hl' & Hwf')];
      rewrite (bind_run _ _ _ _ _ Hrun).
    + exists s. split_and!; [done..| |done]. by rewrite Hnil.
    + destruct (IH _ Hwf') as (s' & Hrun' & Hwf'' & Hl'' & Hc).
      exists s'. split_and!; [done..| |done].
      rewrite Hl'', Hl', Hl, length_app. cbn.
      replace (length l + 1 - S i)%nat with (length l - i)%nat by lia.
      by rewrite take_app_le by lia.
Qed.

(** [Resize] to a positive capacity drops from the back as many entries
    as the capacity shrinks by, or all of them if there are fewer. *)
Lemma Resize_run n s :
  wf s → 0 < n ≤ maxInt64 → 0 < capacity (cache s) ≤ maxInt64 →
  ∃ s', Resize n s = Some (None, s') ∧ wf s'
    ∧ capacity (cache s') = n
    ∧ evictionList (cache s')
      = take (length (evictionList (cache s))
              - Z.to_nat (capacity (cache s) - n))%nat
             (evictionList (cache s)).
Proof.
  intros Hwf Hn Hc. unfold Resize. rewrite decide_False by lia. mrun.
  rewrite sub64_exact by (unfold int64, minInt64, maxInt64 in *; lia).
  destruct (Resize_loop_run (Z.to_nat (capacity (cache s) - n))
              (set_cache (set_capacity n (cache s)) s) Hwf)
    as (s' & Hrun & Hwf' & Hl & Hcap).
  rewrite Hrun. by exists s'.
Qed.

(** On a full cache this is the difference between the length and the
    new capacity: the new capacity is the length that is left. *)
Lemma Resize_full n s :
  wf s → Len_of (cache s) = capacity (cache s) →
  0 < n < Len_of (cache s) → capacity (cache s) ≤ maxInt64 →
  ∃ s', Resize n s = Some (None, s')
    ∧ evictionList (cache s') = take (Z.to_nat n) (evictionList (cache s))
    ∧ Len_of (cache s') = n.
Proof.
  intros Hwf Hfull Hn Hc.
  destruct (Resize_run n s Hwf ltac:(lia) ltac:(lia))
    as (s' & Hrun & _ & _ & Hl).
  unfold Len_of, List_Len in *.
  replace (length (evictionList (cache s))
           - Z.to_nat (capacity (cache s) - n))%nat
    with (Z.to_nat n) in Hl by lia.
  exists s'. split_and!; [done..|].
  rewrite Hl, length_take. lia.
Qed.

Lemma reachable_extend config seed w op s :
  reachable config seed w s → admissible op s →
  ∃ s', exec op s = Some ((), s') ∧ reachable config seed w s'.
Proof.
  intros Hr Hadm.
  destruct (exec_wf op s (reachable_wf _ _ _ _ Hr) Hadm) as (s' & Hrun & _).
  exists s'. split; [done|]. by eapply reachable_step.
Qed.

End agecache_run.

(** ** The operations and their specification *)

Section agecache_spec.

Context {K : Type} `{Countable K} {V : Type} `{!Zero V}.
Context {R : Type} `{!RandGenerator R} {W : Type}.

Implicit Types (s : State K V R W) (c : Cache K V R W).
Implicit Types (e : Elem) (ent : cacheEntry K V) (k : K) (v : V).

(** C3: in every state reached from a cache that [New] built, through
    calls of [Set], [Get], [Remove], [EvictOldest], [Clear] and [Resize]
    (and of [SetMaxAge], [SetMinAge], [OnEviction], [OnExpiration] and
    the rounds of the expiration sweep), the index has as many keys as the recency list has elements,
    which is what [Len] returns, and the keys of the index are the keys
    of the entries in the list, each of which has one. *)
Theorem reachable_index_agrees_with_list config seed w s :
  reachable config seed w s →
  ∃ n, Len s = Some (n, s)
    ∧ Z.of_nat (size (items (cache s))) = n
    ∧ Z.of_nat (length (evictionList (cache s))) = n
    ∧ dom (items (cache s)) = list_to_set (entryKeys s)
    ∧ length (entryKeys s) = length (evictionList (cache s)).
Proof.
  intros Hwf%reachable_wf. exists (Len_of (cache s)).
  split_and!; [done| |done| |].
  - unfold Len_of, List_Len. by rewrite wf_size.
  - by apply wf_dom.
  - by apply wf_entryKeys_length.
Qed.

(** The length stays within the capacity through a call of [Set]. *)
Lemma Set_bounded now k v s :
  wf s → 0 < capacity (cache s) →
  Len_of (cache s) ≤ capacity (cache s) →
  ∃ b s', Set_ now k v s = Some (b, s') ∧ wf s'
    ∧ capacity (cache s') = capacity (cache s)
    ∧ Len_of (cache s') ≤ capacity (cache s').
Proof.
  intros Hwf Hcap Hlen. destruct (items (cache s) !! k) as [e|] eqn:Hk.
  - destruct (wf_lookup s k e Hwf Hk) as (Hin & ent & He & Hkey).
    rewrite (Set_run_present now k v e ent) by done.
    eexists _, _. split_and!; [done|by eapply wf_touched|done|].
    unfold touched, Len_of, List_Len in *. cbn.
    rewrite List_MoveToFront_length; [done|apply Hwf].
  - destruct (Set_absent_wf now k v s Hwf Hcap Hk) as
      [[Hlt ->]|(_ & l & e & ent & Hl & _ & _ & _ & _ & -> & Hl' & Hwf')].
    + eexists _, _. split_and!; [done|by apply wf_inserted|done|].
      unfold inserted, Len_of, List_Len, List_PushFront in *. cbn in *. lia.
    + eexists _, _. split_and!; [done..|].
      unfold Len_of, List_Len in *. rewrite Hl'.
      change (capacity (cache (evicted e ent (inserted now k v s))))
        with (capacity (cache s)).
      rewrite Hl in Hlen. rewrite length_app in Hlen. cbn in *. lia.
Qed.

(** C4: a cache built by [New], with a capacity that is positive
    therefore, runs any sequence of [Set]s to its end, and holds no
    more entries than its capacity after it; the sequence being any,
    so it is after each [Set]. *)
Theorem Sets_within_capacity config seed w c calls :
  New config seed = Ok c →
  ∃ s, Sets calls (start c w) = Some ((), s)
    ∧ Len s = Some (Len_of (cache s), s)
    ∧ Len_of (cache s) ≤ Capacity config.
Proof.
  intros (Hm & Hl & Hc & Hpos & _)%New_empty.
  assert (∀ s0 : State K V R W, wf s0 → capacity (cache s0) = Capacity config →
            Len_of (cache s0) ≤ capacity (cache s0) →
            ∃ s, Sets calls s0 = Some ((), s)
              ∧ Len_of (cache s) ≤ Capacity config) as Hgen.
  { induction calls as [|[[now k] v] calls IH]; intros s0 Hwf Hcap Hlen.
    - exists s0. split; [done|lia].
    - destruct (Set_bounded now k v s0 Hwf ltac:(lia) Hlen)
        as (b & s1 & Hrun & Hwf1 & Hcap1 & Hlen1).
      cbn [Sets]. rewrite (bind_run _ _ _ _ _ Hrun).
      apply IH; [done|congruence|done]. }
  destruct (Hgen (start c w)) as (s & Hrun & Hlen).
  - by apply wf_start.
  - done.
  - unfold Len_of, List_Len, start. cbn. rewrite Hl. cbn. lia.
  - exists s. done.
Qed.

(** C5: an entry is treated as expired exactly when the maximum age is
    positive and the time since the entry's timestamp exceeds it.  [Get]
    of a key whose entry has expired takes the entry out of index and
    list, calls the expiration callback once with the entry's key and
    value, counts a get and a miss and no hit, and reports the key as
    not found; [Get] of a key whose entry has not expired is a hit. *)
Theorem Get_expired now k e ent s :
  wf s → 0 ≤ maxAge (cache s) →
  items (cache s) !! k = Some e → heap s !! e = Some ent →
  ∃ r s', Get now k s = Some (r, s')
    ∧ (r.2 = false ↔ expired (cache s) now ent)
    ∧ (if decide (expired (cache s) now ent) then
        r = (zero, false)
        ∧ items (cache s') = delete k (items (cache s))
        ∧ evictionList (cache s') = List_Remove e (evictionList (cache s))
        ∧ (e ∉ evictionList (cache s'))
        ∧ world s'
          = match onExpiration (cache s) with
            | Some callback => callback k (value ent) (world s)
            | None => world s
            end
        ∧ gets (cache s') = (gets (cache s) + 1 + 2 ^ 63) mod 2 ^ 64 - 2 ^ 63
        ∧ misses (cache s')
          = (misses (cache s) + 1 + 2 ^ 63) mod 2 ^ 64 - 2 ^ 63
        ∧ hits (cache s') = hits (cache s)
        ∧ wf s'
      else
        r = (value ent, true)
        ∧ items (cache s') = items (cache s)
        ∧ world s' = world s
        ∧ gets (cache s') = (gets (cache s) + 1 + 2 ^ 63) mod 2 ^ 64 - 2 ^ 63
        ∧ hits (cache s') = (hits (cache s) + 1 + 2 ^ 63) mod 2 ^ 64 - 2 ^ 63
        ∧ misses (cache s') = misses (cache s)).
Proof.
  intros Hwf Hage Hk He.
  destruct (wf_lookup s k e Hwf Hk) as (Hin & ent' & He' & Hkey).
  assert (ent' = ent) as -> by congruence.
  destruct (decide (expired (cache s) now ent)) as [Hexp|Hfresh].
  - rewrite (Get_run_expired now k e ent); [|done..|by apply expired_iff].
    eexists _, _. split_and!; try done.
    + unfold lapsed. cbn. by rewrite Hkey.
    + unfold lapsed. cbn. rewrite List_Remove_elem_of. naive_solver.
    + unfold lapsed. cbn. by rewrite Hkey.
    + by apply wf_lapsed.
  - assert (maxAge (cache s) = 0
            ∨ Since now (timestamp ent) ≤ maxAge (cache s)) as Hok.
    { unfold expired in Hfresh. lia. }
    rewrite (Get_run_hit now k e ent) by done.
    eexists _, _. split_and!; try done; cbn; naive_solver.
Qed.

(** C6: [Resize] with a capacity that is not positive, [SetMaxAge] with
    a negative age or one below the minimum age, and [SetMinAge] with a
    negative age or one above the maximum age, each return an error and
    leave the whole state as it was. *)
Theorem invalid_arguments_change_nothing s n d1 d2 :
  n ≤ 0 →
  d1 < 0 ∨ d1 < minAge (cache s) →
  d2 < 0 ∨ d2 > maxAge (cache s) →
  (∃ msg, Resize n s = Some (Some msg, s))
  ∧ (∃ msg, SetMaxAge d1 s = Some (Some msg, s))
  ∧ (∃ msg, SetMinAge d2 s = Some (Some msg, s)).
Proof.
  intros Hn Hd1 Hd2. split_and!.
  - unfold Resize. rewrite decide_True by done. by eexists.
  - unfold SetMaxAge. mrun.
    destruct (decide (d1 < 0)); [by eexists|].
    rewrite decide_True by lia. by eexists.
  - unfold SetMinAge. mrun.
    destruct (decide (d2 < 0)); [by eexists|].
    rewrite decide_True by lia. by eexists.
Qed.

(** C9: on a well-formed state [Peek] and [Has] return and leave the
    whole state as it was, whatever the key, so that they move no entry,
    delete none and count nothing; [Get] of a key whose entry has not
    expired returns its value and moves its element to the front of the
    recency list, before the others in the order they had. *)
Theorem Get_promotes_Peek_Has_read s :
  wf s →
  (∀ k, ∃ r, Peek k s = Some (r, s))
  ∧ (∀ k, ∃ b, Has k s = Some (b, s))
  ∧ (∀ now k e ent,
       0 ≤ maxAge (cache s) →
       items (cache s) !! k = Some e → heap s !! e = Some ent →
       ¬ expired (cache s) now ent →
       ∃ s', Get now k s = Some ((value ent, true), s')
         ∧ evictionList (cache s')
           = e :: List_Remove e (evictionList (cache s))
         ∧ entryKeys s' = k :: filter (λ x, x ≠ k) (entryKeys s)
         ∧ items (cache s') = items (cache s)
         ∧ heap s' = heap s).
Proof.
  intros Hwf. split_and!.
  - intros k. by apply Peek_total.
  - intros k. eexists. apply Has_run.
  - intros now k e ent Hage Hk He Hfresh.
    destruct (wf_lookup s k e Hwf Hk) as (Hin & ent' & He' & Hkey).
    assert (ent' = ent) as -> by congruence.
    rewrite (Get_run_hit now k e ent); [|done..|unfold expired in *; lia].
    eexists. split_and!; try done.
    + cbn. by apply List_MoveToFront_in.
    + unfold entryKeys, hit. cbn. rewrite <- Hkey.
      by eapply rep_entryKeys_move.
Qed.

(** C7: [Set] on a well-formed cache within its capacity returns true
    exactly when the cache is full and the key is new.  Then the key
    that goes is the first of [OrderedKeys] before the call, the one at
    the back of the recency list; the others keep their order and the
    new key follows them as the most recent; the eviction callback is
    called once with the key and the value that went, and the evictions
    counter goes up by one.  When [Set] returns false no entry has gone:
    no key has left the index, no callback was called and the counter is
    what it was. *)
Theorem Set_evicts_least_recent now k v s :
  wf s → 0 < capacity (cache s) →
  Len_of (cache s) ≤ capacity (cache s) →
  ∃ b s', Set_ now k v s = Some (b, s')
    ∧ (b = true ↔ Len_of (cache s) = capacity (cache s)
                  ∧ items (cache s) !! k = None)
    ∧ (b = false ↔ evictions (cache s') = evictions (cache s))
    ∧ Peek k s' = Some ((v, true), s')
    ∧ (if b then
         ∃ k0 v0 ks,
           OrderedKeys s = Some (Ok (k0 :: ks), s)
           ∧ Peek k0 s = Some ((v0, true), s)
           ∧ OrderedKeys s' = Some (Ok (ks ++ [k]), s')
           ∧ dom (items (cache s'))
             = {[k]} ∪ (dom (items (cache s)) ∖ {[k0]})
           ∧ k0 ≠ k
           ∧ world s'
             = match onEviction (cache s) with
               | Some callback => callback k0 v0 (world s)
               | None => world s
               end
           ∧ evictions (cache s')
             = (evictions (cache s) + 1 + 2 ^ 63) mod 2 ^ 64 - 2 ^ 63
       else
         evictions (cache s') = evictions (cache s)
         ∧ world s' = world s
         ∧ dom (items (cache s)) ⊆ dom (items (cache s'))).
Proof.
  intros Hwf Hcap Hlen.
  destruct (Set_entry now k v s Hwf Hcap)
    as (b0 & s0 & Hrun0 & Hwf0 & Hent0 & _).
  assert (Peek k s0 = Some ((v, true), s0)) as Hpeek.
  { unfold entryOf in Hent0.
    destruct (items (cache s0) !! k) as [e|] eqn:Hk; [|done].
    by rewrite (Peek_run_present k e _ s0 Hk Hent0). }
  destruct (items (cache s) !! k) as [e|] eqn:Hk.
  - destruct (wf_lookup s k e Hwf Hk) as (Hin & ent & He & Hkey).
    rewrite (Set_run_present now k v e ent) in Hrun0 |- * by done.
    injection Hrun0 as <- <-.
    eexists _, _. split; [done|]. split_and!; [naive_solver|done..].
  - destruct (Set_absent_wf now k v s Hwf Hcap Hk) as
      [[Hlt Hrun]|(Hge & l & e & ent & Hl & He & Hke & Hne & He1 & Hrun
                   & Hl' & Hwf')];
      rewrite Hrun in Hrun0 |- *; injection Hrun0 as <- <-.
    + eexists _, _. split; [done|]. split_and!; [|done..|].
      * split; [done|]. intros [? _]. lia.
      * unfold inserted. cbn. rewrite dom_insert_L. set_solver.
    + eexists _, _. split; [done|]. split_and!; [| |done|].
      { split; [|done]. intros _. split; [lia|done]. }
      { split; [done|]. cbn. intros Hev. by apply incr64_neq in Hev. }
      exists (key ent), (value ent),
        (reverse (omap (λ x, key <$> heap s !! x) l)).
      split_and!.
      * rewrite OrderedKeys_run by done.
        rewrite (entryKeys_back l e ent) by done.
        by rewrite reverse_snoc.
      * by apply (Peek_run_present _ e).
      * rewrite OrderedKeys_run by done. unfold entryKeys.
        rewrite Hl'. cbn [omap list_omap evicted heap set_world set_cache
                           inserted set_heap].
        rewrite lookup_insert_eq. cbn [fmap option_fmap option_map key].
        rewrite reverse_cons. rewrite entryKeys_omap_insert; [done|].
        pose proof (fresh_not_in_list s Hwf) as Hf. rewrite Hl in Hf.
        set_solver.
      * unfold evicted, inserted. cbn.
        rewrite dom_delete_L, dom_insert_L. set_solver.
      * done.
      * done.
      * done.
Qed.

(** C8 as amended: [Set] of a key and a value, followed by [Get] of the
    key with no call between, returns the value as found, provided the
    maximum age is zero or the time from the timestamp that the [Set]
    assigned, which is its instant less the jitter it drew, to the [Get]
    is within the maximum age. *)
Theorem Set_then_Get now now' k v s :
  wf s → 0 < capacity (cache s) →
  maxAge (cache s) = 0
  ∨ Since now' (stamp now (cache s)) ≤ maxAge (cache s) →
  ∃ b s1 s2,
    Set_ now k v s = Some (b, s1)
    ∧ entryOf k s1
      = Some {| key := k; value := v; timestamp := stamp now (cache s) |}
    ∧ Get now' k s1 = Some ((v, true), s2).
Proof. apply Set_Get_run. Qed.

(** In particular the [Get] finds the value when no more than the
    minimum age has passed since the [Set], for a generator that keeps
    to the contract of [Int63n]. *)
Lemma Set_then_Get_within_minAge now now' k v s :
  wf s → 0 < capacity (cache s) →
  rand_in_range (rand (cache s)) →
  0 ≤ minAge (cache s) ≤ maxAge (cache s) → maxAge (cache s) ≤ maxInt64 →
  now ≤ now' → now' - now ≤ minAge (cache s) →
  ∃ b s1 s2,
    Set_ now k v s = Some (b, s1) ∧ Get now' k s1 = Some ((v, true), s2).
Proof.
  intros Hwf Hcap Hrand Hages Hmax Hnow Hel.
  destruct (Set_Get_run now now' k v s Hwf Hcap) as (b & s1 & s2 & ? & _ & ?);
    [right; by apply stamp_age|by eauto].
Qed.

(** C2 as amended: a cache built with a minimum age of zero has its
    minimum age set to the maximum age, which turns the jitter off: every
    [Set] that follows, after any sequence of [Set]s, gives the entry the
    instant of the call as its timestamp and leaves the generator as it
    was. *)
Theorem zero_MinAge_disables_jitter config seed w c calls s now k v :
  New config seed = Ok c → MinAge config = 0 →
  Sets calls (start c w) = Some ((), s) →
  minAge (cache s) = MaxAge config
  ∧ ∃ b s' ent,
      Set_ now k v s = Some (b, s')
      ∧ entryOf k s' = Some ent
      ∧ value ent = v
      ∧ timestamp ent = now
      ∧ rand (cache s') = rand (cache s).
Proof.
  intros (Hm & Hl & Hc & Hpos & Hmax & _ & Hmin & _)%New_empty Hzero Hrun.
  rewrite decide_True in Hmin by done.
  destruct (Sets_run calls (start c w)) as (s1 & Hrun1 & Hwf & Hc1 & Hmin1 & Hmax1);
    [by apply wf_start|done|].
  assert (s1 = s) as -> by congruence. cbn in Hc1, Hmin1, Hmax1.
  split; [congruence|].
  destruct (Set_entry now k v s Hwf ltac:(lia))
    as (b & s' & HSet & _ & Hent & _ & _ & _ & Hrand).
  exists b, s'. eexists. split_and!; [done..| |].
  - cbn. unfold stamp. rewrite decide_True; [done|congruence].
  - rewrite Hrand. unfold drawn. rewrite decide_True; [done|congruence].
Qed.

(** With a minimum age between zero and the maximum age the timestamp is
    the instant of the call less what the generator draws below their
    difference. *)
Lemma Set_jitter now k v s :
  wf s → 0 < capacity (cache s) →
  0 < minAge (cache s) < maxAge (cache s) → maxAge (cache s) ≤ maxInt64 →
  rand_in_range (rand (cache s)) →
  ∃ b s' ent r,
    Set_ now k v s = Some (b, s')
    ∧ entryOf k s' = Some ent
    ∧ r = (Int63n (rand (cache s)) (maxAge (cache s) - minAge (cache s))).1
    ∧ 0 ≤ r < maxAge (cache s) - minAge (cache s)
    ∧ timestamp ent = now - r.
Proof.
  intros Hwf Hcap Hages Hmax Hrand.
  destruct (Set_entry now k v s Hwf Hcap)
    as (b & s' & HSet & _ & Hent & _).
  exists b, s'. eexists _, _.
  split; [exact HSet|]. split; [exact Hent|]. split; [reflexivity|].
  split; [apply Hrand; lia|].
  cbn. unfold stamp, jitterDraw, Time_Add.
  rewrite decide_False by lia.
  rewrite sub64_exact by (unfold int64, minInt64, maxInt64 in *; lia).
  pose proof (Hrand (maxAge (cache s) - minAge (cache s)) ltac:(lia)).
  unfold neg64. rewrite wrap64_id; [lia|].
  unfold int64, minInt64, maxInt64 in *. lia.
Qed.

End agecache_spec.

(** C10: [Delta] keeps the gauges [Capacity] and [Count] of the receiver.
    Each counter of the result is the counter of the receiver minus the
    one of [previous]: exactly so whenever that difference is a value of
    [int64], and otherwise brought back into [int64] by a multiple of
    2^64, as Go's [-] on [int64] does. *)
Theorem Delta_fields (stats previous : Stats.t) :
  Stats.Capacity (Stats.Delta stats previous) = Stats.Capacity stats
  ∧ Stats.Count (Stats.Delta stats previous) = Stats.Count stats
  ∧ Forall
      (λ counter : Stats.t → Z,
         counter (Stats.Delta stats previous)
         = (counter stats - counter previous + 2 ^ 63) mod 2 ^ 64 - 2 ^ 63
         ∧ (- 2 ^ 63 ≤ counter stats - counter previous < 2 ^ 63 →
            counter (Stats.Delta stats previous)
            = counter stats - counter previous))
      [Stats.Sets; Stats.Gets; Stats.Hits; Stats.Misses; Stats.Evictions].
Proof.
  split; [done|]. split; [done|].
  repeat (apply Forall_cons; split;
          [split; [done|];
           intros Hint; apply sub64_exact;
           unfold int64, minInt64, maxInt64; lia|]).
  apply Forall_nil_2.
Qed.

(** For counters that are not negative, as those of a cache are, the
    differences are exact. *)
Lemma Delta_exact (stats previous : Stats.t) :
  Forall (λ z, 0 ≤ z ≤ maxInt64) (Stats.counters stats) →
  Forall (λ z, 0 ≤ z ≤ maxInt64) (Stats.counters previous) →
  Stats.counters (Stats.Delta stats previous)
  = zip_with Z.sub (Stats.counters stats) (Stats.counters previous).
Proof.
  unfold Stats.counters, Stats.Delta. cbn.
  rewrite !Forall_cons, Forall_nil.
  intros (? & ? & ? & ? & ? & _) (? & ? & ? & ? & ? & _).
  rewrite !sub64_exact; [done|unfold int64, minInt64, maxInt64 in *; lia..].
Qed.

Lemma Delta_fields_witness :
  Stats.Delta (Stats.mk 5 3 10 7 4 3 2) (Stats.mk 5 2 4 2 1 1 0)
  = Stats.mk 5 3 6 5 3 2 2
  ∧ Stats.Sets (Stats.Delta (Stats.mk 5 3 (- 2 ^ 63) 0 0 0 0)
                            (Stats.mk 5 3 (2 ^ 63 - 1) 0 0 0 0))
    = 1.
Proof.
  split.
  - pose proof (Delta_fields (Stats.mk 5 3 10 7 4 3 2)
                  (Stats.mk 5 2 4 2 1 1 0)) as (Hcap & Hcount & Hcounters).
    rewrite !Forall_cons in Hcounters.
    destruct Hcounters
      as ([_ Hsets] & [_ Hgets] & [_ Hhits] & [_ Hmisses] & [_ Hevictions]
          & _).
    remember (Stats.Delta _ _) as d eqn:Hd in *. clear Hd.
    destruct d as [cap count sets gets hits misses evictions].
    cbn in Hcap, Hcount, Hsets, Hgets, Hhits, Hmisses, Hevictions.
    rewrite Hcap, Hcount, Hsets, Hgets, Hhits, Hmisses, Hevictions by lia.
    reflexivity.
  - pose proof (Delta_fields (Stats.mk 5 3 (- 2 ^ 63) 0 0 0 0)
                  (Stats.mk 5 3 (2 ^ 63 - 1) 0 0 0 0)) as (_ & _ & Hcounters).
    rewrite !Forall_cons in Hcounters.
    destruct Hcounters as ([Hsets _] & _).
    rewrite Hsets. reflexivity.
Defined.

(** ** The cache of integers under string keys *)

Lemma demo_wf cap maxA minA seed calls s :
  demo cap maxA minA seed calls = Some s →
  wf s ∧ 0 < capacity (cache s) ∧ capacity (cache s) = cap.
Proof.
  unfold demo, built.
  destruct (New (demo_config cap maxA minA) seed) as [c|] eqn:Hnew; [|done].
  apply New_empty in Hnew as (Hm & Hl & Hc & Hpos & _). cbn.
  destruct (Sets_run calls (start c []))
    as (s' & -> & Hwf & Hcap & _); [by apply wf_start|done|].
  cbn. intros [= <-]. cbn in Hcap, Hc. split_and!; [done|lia|lia].
Qed.

Lemma New_total `{Countable K} {V R W : Type} (config : Config K V W)
    (seed : R) :
  0 < Capacity config → 0 ≤ MinAge config ≤ MaxAge config →
  ∃ c : Cache K V R W, New config seed = Ok c.
Proof.
  intros Hcap Hages. unfold New.
  repeat (destruct (decide _) as [?|?]; [lia|]). by eexists.
Qed.

Lemma demo_total cap maxA minA seed calls :
  0 < cap → 0 ≤ minA ≤ maxA →
  ∃ s, demo cap maxA minA seed calls = Some s.
Proof.
  intros Hcap Hages. unfold demo, built.
  destruct (New_total (R := list Z) (demo_config cap maxA minA) seed)
    as (c & Hnew); [done..|].
  rewrite Hnew. cbn.
  apply New_empty in Hnew as (Hm & Hl & _ & Hpos & _).
  destruct (Sets_run calls (start c []))
    as (s' & -> & _); [by apply wf_start|done|].
  by eexists.
Qed.

(** What a computation on the state of a run shows is read off the run. *)
Lemma observe {A B} (f : A → B) (o : option A) (a : A) (b : B) :
  o = Some a → f <$> o = Some b → f a = b.
Proof. intros -> [= <-]. done. Qed.

Lemma replay_in_range (seed : list Z) : rand_in_range seed.
Proof.
  intros n Hn. destruct seed as [|x seed]; cbn; [lia|].
  apply Z.mod_pos_bound. lia.
Qed.

(** C1, where the code departs from it: [Resize] runs its loop once for
    each unit between the old capacity and the new one, not between the
    length and the new capacity.  A cache of capacity 3 that holds the two
    keys a and b loses both of them to [Resize(1)], with two calls of the
    eviction callback, where one entry was to go; and it loses a to
    [Resize(2)], where none was to go.  Each line gives the length before
    the call, the error returned, and the length, the evictions counter
    and the calls of the callbacks after it. *)
Theorem Resize_counts_from_capacity :
  (s ← demo 3 0 0 [] [(1, "a", 1); (2, "b", 2)];
   '(err, s1) ← Resize 1 s;
   Some (Len_of (cache s), err, Len_of (cache s1), evictions (cache s1),
         world s1))
  = Some (2, None, 0, 2, [Evicted "a" 1; Evicted "b" 2])
  ∧ (s ← demo 3 0 0 [] [(1, "a", 1); (2, "b", 2)];
     '(err, s2) ← Resize 2 s;
     Some (Len_of (cache s), err, Len_of (cache s2), evictions (cache s2),
           world s2))
    = Some (2, None, 1, 1, [Evicted "a" 1]).
Proof. split; vm_compute; reflexivity. Qed.

(** C2 as the claim has it fails: a cache built with a minimum age of
    zero and a maximum age of ten gives two [Set]s at one instant the same
    timestamp, whatever the generator would draw. *)
Lemma zero_MinAge_jitter_counterexample :
  ¬ ∃ (seed : list Z) s ent1 ent2,
      demo 2 10 0 seed [(100, "a", 1); (100, "b", 2)] = Some s
      ∧ entryOf "a" s = Some ent1
      ∧ entryOf "b" s = Some ent2
      ∧ timestamp ent1 ≠ timestamp ent2.
Proof.
  intros (seed & s & ent1 & ent2 & Hs & H1 & H2 & Hne).
  assert ((timestamp <$> entryOf "a" s, timestamp <$> entryOf "b" s)
          = (Some 100, Some 100)) as Hobs.
  { apply (observe
      (λ s, (timestamp <$> entryOf "a" s, timestamp <$> entryOf "b" s))
      _ _ _ Hs). vm_compute. reflexivity. }
  rewrite H1, H2 in Hobs. cbn in Hobs. injection Hobs as E1 E2.
  apply Hne. congruence.
Qed.

Lemma zero_MinAge_disables_jitter_witness :
  ∃ c s,
    New (demo_config 2 10 0) [3; 4] = Ok c
    ∧ MinAge (demo_config 2 10 0) = 0
    ∧ Sets [(100, "a", 1)] (start c []) = Some ((), s)
    ∧ minAge (cache s) = MaxAge (demo_config 2 10 0)
    ∧ ∃ b s' ent,
        Set_ 100 "b" 2 s = Some (b, s')
        ∧ entryOf "b" s' = Some ent
        ∧ value ent = 2
        ∧ timestamp ent = 100
        ∧ rand (cache s') = rand (cache s).
Proof.
  destruct (New_total (R := list Z) (demo_config 2 10 0) [3; 4])
    as (c & Hnew); [done..|].
  pose proof Hnew as (Hm & Hl & _ & Hpos & _)%New_empty.
  destruct (Sets_run [(100, "a", 1)] (start c []))
    as (s & Hs & _); [by apply wf_start|done|].
  exists c, s. split; [exact Hnew|]. split; [reflexivity|].
  split; [exact Hs|].
  exact (zero_MinAge_disables_jitter (demo_config 2 10 0) [3; 4] []
           c [(100, "a", 1)] s 100 "b" 2 Hnew eq_refl Hs).
Defined.

Lemma reachable_index_agrees_with_list_witness :
  ∃ s,
    reachable (demo_config 2 0 0) [] [] s
    ∧ ∃ n, Len s = Some (n, s)
        ∧ Z.of_nat (size (items (cache s))) = n
        ∧ Z.of_nat (length (evictionList (cache s))) = n
        ∧ dom (items (cache s)) = list_to_set (entryKeys s)
        ∧ length (entryKeys s) = length (evictionList (cache s)).
Proof.
  destruct (New_total (R := list Z) (demo_config 2 0 0) [])
    as (c & Hnew); [done..|].
  pose proof (reachable_New _ _ [] c Hnew) as H0.
  destruct (reachable_extend _ _ _ (OpSet 1 "a" 1) _ H0 I) as (s1 & _ & H1).
  destruct (reachable_extend _ _ _ (OpSet 2 "b" 2) _ H1 I) as (s2 & _ & H2).
  destruct (reachable_extend _ _ _ (OpSet 3 "c" 3) _ H2 I) as (s3 & _ & H3).
  destruct (reachable_extend _ _ _ (OpGet 4 "b") _ H3 I) as (s4 & _ & H4).
  destruct (reachable_extend _ _ _ (OpResize 1) _ H4 I) as (s5 & _ & H5).
  exists s5. split; [exact H5|].
  exact (reachable_index_agrees_with_list _ _ _ _ H5).
Defined.

Lemma Sets_within_capacity_witness :
  ∃ c,
    New (demo_config 2 0 0) [] = Ok c
    ∧ ∃ s, Sets [(1, "a", 1); (2, "b", 2); (3, "c", 3)] (start c [])
           = Some ((), s)
        ∧ Len s = Some (Len_of (cache s), s)
        ∧ Len_of (cache s) ≤ Capacity (demo_config 2 0 0).
Proof.
  destruct (New_total (R := list Z) (demo_config 2 0 0) [])
    as (c & Hnew); [done..|].
  exists c. split; [exact Hnew|].
  exact (Sets_within_capacity (demo_config 2 0 0) [] [] c _ Hnew).
Defined.

Lemma Get_expired_witness :
  let ent := {| key := "a"; value := 1; timestamp := 100 |} in
  ∃ s,
    demo 2 10 0 [] [(100, "a", 1)] = Some s
    ∧ wf s ∧ 0 ≤ maxAge (cache s)
    ∧ items (cache s) !! "a" = Some 1%positive
    ∧ heap s !! 1%positive = Some ent
    ∧ expired (cache s) 111 ent
    ∧ world s = []
    ∧ (gets (cache s), hits (cache s), misses (cache s)) = (0, 0, 0)
    ∧ ∃ s', Get 111 "a" s = Some ((0, false), s')
        ∧ items (cache s') !! "a" = None
        ∧ (1%positive ∉ evictionList (cache s'))
        ∧ world s' = [Expired "a" 1]
        ∧ (gets (cache s'), hits (cache s'), misses (cache s')) = (1, 0, 1).
Proof.
  intros ent.
  destruct (demo_total 2 10 0 [] [(100, "a", 1)]) as (s & Hs); [lia..|].
  pose proof (demo_wf _ _ _ _ _ _ Hs) as (Hwf & _).
  assert (maxAge (cache s) = 10) as Hmax.
  { apply (observe (λ s, maxAge (cache s)) _ _ _ Hs). vm_compute. reflexivity. }
  assert (items (cache s) !! "a" = Some 1%positive) as Hk.
  { apply (observe (λ s, items (cache s) !! "a") _ _ _ Hs).
    vm_compute. reflexivity. }
  assert (heap s !! 1%positive = Some ent) as He.
  { apply (observe (λ s, heap s !! 1%positive) _ _ _ Hs).
    vm_compute. reflexivity. }
  assert (world s = []) as Hw0.
  { apply (observe (λ s, world s) _ _ _ Hs). vm_compute. reflexivity. }
  assert ((gets (cache s), hits (cache s), misses (cache s)) = (0, 0, 0))
    as Hcnt.
  { apply (observe (λ s, (gets (cache s), hits (cache s), misses (cache s)))
             _ _ _ Hs).
    vm_compute. reflexivity. }
  assert (onExpiration (cache s) = Some (λ k v w, w ++ [Expired k v]))
    as Hcb.
  { apply (observe (λ s, onExpiration (cache s)) _ _ _ Hs).
    vm_compute. reflexivity. }
  assert (0 ≤ maxAge (cache s)) as Hage by lia.
  assert (expired (cache s) 111 ent) as Hexp.
  { unfold expired. rewrite Hmax. by vm_compute. }
  exists s. split; [exact Hs|]. split; [exact Hwf|]. split; [exact Hage|].
  split; [exact Hk|]. split; [exact He|]. split; [exact Hexp|].
  split; [exact Hw0|]. split; [exact Hcnt|].
  destruct (Get_expired 111 "a" 1%positive ent s Hwf Hage Hk He)
    as (r & s' & Hrun & _ & Hres).
  destruct (decide (expired (cache s) 111 ent)) as [_|Hn]; [|by destruct Hn].
  destruct Hres as (-> & Hitems & _ & Hnotin & Hw & Hg & Hm & Hh & _).
  injection Hcnt as Hg0 Hh0 Hm0.
  exists s'. split; [exact Hrun|].
  split; [rewrite Hitems; apply lookup_delete_eq|].
  split; [exact Hnotin|].
  split; [rewrite Hw, Hcb, Hw0; reflexivity|].
  rewrite Hg, Hm, Hh, Hg0, Hh0, Hm0. reflexivity.
Defined.

Lemma invalid_arguments_change_nothing_witness :
  ∃ s,
    demo 2 10 5 [3] [(100, "a", 1)] = Some s
    ∧ 0 ≤ 0
    ∧ (4 < 0 ∨ 4 < minAge (cache s))
    ∧ (11 < 0 ∨ 11 > maxAge (cache s))
    ∧ (∃ msg, Resize 0 s = Some (Some msg, s))
    ∧ (∃ msg, SetMaxAge 4 s = Some (Some msg, s))
    ∧ (∃ msg, SetMinAge 11 s = Some (Some msg, s)).
Proof.
  destruct (demo_total 2 10 5 [3] [(100, "a", 1)]) as (s & Hs); [lia..|].
  assert (minAge (cache s) = 5) as Hmin.
  { apply (observe (λ s, minAge (cache s)) _ _ _ Hs). vm_compute. reflexivity. }
  assert (maxAge (cache s) = 10) as Hmax.
  { apply (observe (λ s, maxAge (cache s)) _ _ _ Hs). vm_compute. reflexivity. }
  assert (0 ≤ 0) as H0 by lia.
  assert (4 < 0 ∨ 4 < minAge (cache s)) as H1 by (right; lia).
  assert (11 < 0 ∨ 11 > maxAge (cache s)) as H2 by (right; lia).
  exists s. split; [exact Hs|]. split; [exact H0|].
  split; [exact H1|]. split; [exact H2|].
  exact (invalid_arguments_change_nothing s 0 4 11 H0 H1 H2).
Defined.

Lemma Set_evicts_least_recent_witness :
  ∃ s,
    demo 2 0 0 [] [(1, "a", 1); (2, "b", 2)] = Some s
    ∧ wf s ∧ 0 < capacity (cache s)
    ∧ Len_of (cache s) ≤ capacity (cache s)
    ∧ Len_of (cache s) = capacity (cache s)
    ∧ items (cache s) !! "c" = None
    ∧ OrderedKeys s = Some (Ok ["a"; "b"], s)
    ∧ world s = [] ∧ evictions (cache s) = 0
    ∧ ∃ s', Set_ 3 "c" 3 s = Some (true, s')
        ∧ Peek "c" s' = Some ((3, true), s')
        ∧ OrderedKeys s' = Some (Ok ["b"; "c"], s')
        ∧ world s' = [Evicted "a" 1]
        ∧ evictions (cache s') = 1.
Proof.
  destruct (demo_total 2 0 0 [] [(1, "a", 1); (2, "b", 2)]) as (s & Hs);
    [lia..|].
  pose proof (demo_wf _ _ _ _ _ _ Hs) as (Hwf & Hcap & Hc).
  assert (Len_of (cache s) = 2) as Hlen.
  { apply (observe (λ s, Len_of (cache s)) _ _ _ Hs). vm_compute. reflexivity. }
  assert (items (cache s) !! "c" = None) as Hk.
  { apply (observe (λ s, items (cache s) !! "c") _ _ _ Hs).
    vm_compute. reflexivity. }
  assert (fst <$> OrderedKeys s = Some (Ok ["a"; "b"])) as Hkeys.
  { apply (observe (λ s, fst <$> OrderedKeys s) _ _ _ Hs).
    vm_compute. reflexivity. }
  assert (fst <$> Peek "a" s = Some (1, true)) as Hpeek0.
  { apply (observe (λ s, fst <$> Peek "a" s) _ _ _ Hs).
    vm_compute. reflexivity. }
  assert (world s = []) as Hw0.
  { apply (observe (λ s, world s) _ _ _ Hs). vm_compute. reflexivity. }
  assert (evictions (cache s) = 0) as Hev0.
  { apply (observe (λ s, evictions (cache s)) _ _ _ Hs).
    vm_compute. reflexivity. }
  assert (onEviction (cache s) = Some (λ k v w, w ++ [Evicted k v])) as Hcb.
  { apply (observe (λ s, onEviction (cache s)) _ _ _ Hs).
    vm_compute. reflexivity. }
  assert (Len_of (cache s) ≤ capacity (cache s)) as Hle by lia.
  assert (Len_of (cache s) = capacity (cache s)) as Hfull by lia.
  destruct (Set_evicts_least_recent 3 "c" 3 s Hwf Hcap Hle)
    as (b & s' & Hrun & Hb & _ & Hpeek & Hres).
  assert (b = true) as -> by (apply Hb; split; [exact Hfull|exact Hk]).
  destruct Hres as (k0 & v0 & ks & Hok & Hpk & Hok' & _ & _ & Hw & Hev).
  rewrite Hok in Hkeys. injection Hkeys as -> ->.
  rewrite Hpk in Hpeek0. injection Hpeek0 as ->.
  exists s. split; [exact Hs|]. split; [exact Hwf|]. split; [exact Hcap|].
  split; [exact Hle|]. split; [exact Hfull|]. split; [exact Hk|].
  split; [exact Hok|]. split; [exact Hw0|]. split; [exact Hev0|].
  exists s'. split; [exact Hrun|]. split; [exact Hpeek|].
  split; [exact Hok'|].
  split; [rewrite Hw, Hcb, Hw0; reflexivity|].
  rewrite Hev, Hev0. reflexivity.
Defined.

Lemma Set_then_Get_witness :
  ∃ s,
    demo 2 10 5 [4] [] = Some s
    ∧ wf s ∧ 0 < capacity (cache s)
    ∧ (maxAge (cache s) = 0
       ∨ Since 105 (stamp 100 (cache s)) ≤ maxAge (cache s))
    ∧ ∃ b s1 s2,
        Set_ 100 "k" 1 s = Some (b, s1)
        ∧ entryOf "k" s1
          = Some {| key := "k"; value := 1;
                    timestamp := stamp 100 (cache s) |}
        ∧ Get 105 "k" s1 = Some ((1, true), s2).
Proof.
  destruct (demo_total 2 10 5 [4] []) as (s & Hs); [lia..|].
  pose proof (demo_wf _ _ _ _ _ _ Hs) as (Hwf & Hcap & _).
  assert (maxAge (cache s) = 0
          ∨ Since 105 (stamp 100 (cache s)) ≤ maxAge (cache s)) as Hage.
  { right.
    assert (Since 105 (stamp 100 (cache s)) = 9) as ->.
    { apply (observe (λ s, Since 105 (stamp 100 (cache s))) _ _ _ Hs).
      vm_compute. reflexivity. }
    assert (maxAge (cache s) = 10) as ->; [|lia].
    apply (observe (λ s, maxAge (cache s)) _ _ _ Hs). vm_compute. reflexivity. }
  exists s. split; [exact Hs|]. split; [exact Hwf|]. split; [exact Hcap|].
  split; [exact Hage|].
  exact (Set_then_Get 100 105 "k" 1 s Hwf Hcap Hage).
Defined.

(** C8 as the claim has it fails: with a maximum age of ten, a minimum
    age of five and a jitter of four drawn at the [Set], the [Get] that
    follows seven later, when the maximum age has not passed since the
    [Set], finds the entry eleven old and expired. *)
Lemma Set_then_Get_counterexample :
  ¬ ∀ (s : State string Z (list Z) (list Call)) (now now' : Time)
      (k : string) (v : Z),
      wf s → 0 < capacity (cache s) →
      0 ≤ minAge (cache s) ≤ maxAge (cache s) →
      rand_in_range (rand (cache s)) →
      now ≤ now' →
      maxAge (cache s) = 0 ∨ now' - now ≤ maxAge (cache s) →
      ∃ b s1 s2,
        Set_ now k v s = Some (b, s1)
        ∧ Get now' k s1 = Some ((v, true), s2).
Proof.
  intros Hclaim.
  destruct (demo_total 2 10 5 [4] []) as (s & Hs); [lia..|].
  pose proof (demo_wf _ _ _ _ _ _ Hs) as (Hwf & Hcap & _).
  assert (minAge (cache s) = 5) as Hmin.
  { apply (observe (λ s, minAge (cache s)) _ _ _ Hs). vm_compute. reflexivity. }
  assert (maxAge (cache s) = 10) as Hmax.
  { apply (observe (λ s, maxAge (cache s)) _ _ _ Hs). vm_compute. reflexivity. }
  destruct (Hclaim s 100 107 "k" 1 Hwf Hcap) as (b & s1 & s2 & HSet & HGet).
  - lia.
  - apply replay_in_range.
  - lia.
  - right. lia.
  - assert ((snd <$> Set_ 100 "k" 1 s) ≫= (λ s1, fst <$> Get 107 "k" s1)
            = Some (0, false)) as Hobs.
    { apply (observe
        (λ s, (snd <$> Set_ 100 "k" 1 s) ≫= (λ s1, fst <$> Get 107 "k" s1))
        _ _ _ Hs). vm_compute. reflexivity. }
    rewrite HSet in Hobs. cbn in Hobs. rewrite HGet in Hobs. discriminate Hobs.
Qed.

Lemma Get_promotes_Peek_Has_read_witness :
  let ent := {| key := "a"; value := 1; timestamp := 1 |} in
  ∃ s,
    demo 3 10 0 [] [(1, "a", 1); (2, "b", 2); (3, "c", 3)] = Some s
    ∧ wf s
    ∧ 0 ≤ maxAge (cache s)
    ∧ items (cache s) !! "a" = Some 1%positive
    ∧ heap s !! 1%positive = Some ent
    ∧ ¬ expired (cache s) 9 ent
    ∧ (∀ k, ∃ r, Peek k s = Some (r, s))
    ∧ (∀ k, ∃ b, Has k s = Some (b, s))
    ∧ ∃ s', Get 9 "a" s = Some ((value ent, true), s')
        ∧ evictionList (cache s')
          = 1%positive :: List_Remove 1%positive (evictionList (cache s))
        ∧ entryKeys s' = "a" :: filter (λ x, x ≠ "a") (entryKeys s)
        ∧ items (cache s') = items (cache s)
        ∧ heap s' = heap s.
Proof.
  intros ent.
  destruct (demo_total 3 10 0 [] [(1, "a", 1); (2, "b", 2); (3, "c", 3)])
    as (s & Hs); [lia..|].
  pose proof (demo_wf _ _ _ _ _ _ Hs) as (Hwf & _).
  assert (maxAge (cache s) = 10) as Hmax.
  { apply (observe (λ s, maxAge (cache s)) _ _ _ Hs). vm_compute. reflexivity. }
  assert (items (cache s) !! "a" = Some 1%positive) as Hk.
  { apply (observe (λ s, items (cache s) !! "a") _ _ _ Hs).
    vm_compute. reflexivity. }
  assert (heap s !! 1%positive = Some ent) as He.
  { apply (observe (λ s, heap s !! 1%positive) _ _ _ Hs).
    vm_compute. reflexivity. }
  assert (0 ≤ maxAge (cache s)) as Hage by lia.
  assert (¬ expired (cache s) 9 ent) as Hfresh.
  { unfold expired. rewrite Hmax. intros [_ Hgt]. by vm_compute in Hgt. }
  destruct (Get_promotes_Peek_Has_read s Hwf) as (HPeek & HHas & HGet).
  exists s. split; [exact Hs|]. split; [exact Hwf|]. split; [exact Hage|].
  split; [exact Hk|]. split; [exact He|]. split; [exact Hfresh|].
  split; [exact HPeek|]. split; [exact HHas|].
  exact (HGet 9 "a" 1%positive ent Hage Hk He Hfresh).
Defined.

(** * The rest of the cache *)

Section agecache_more.

Context {K : Type} `{Countable K} {V : Type} `{!Zero V} `{!Zero K}.
Context {R : Type} `{!RandGenerator R} {W : Type}.

Implicit Types (s : State K V R W) (c : Cache K V R W).
Implicit Types (e : Elem) (ent : cacheEntry K V) (k : K) (v : V).
Implicit Types (m : gmap K Elem) (l : list Elem).
Implicit Types (h : gmap Elem (cacheEntry K V)).

(** ** Helpers *)

Lemma rep_entryKeys_remove m l h e ent :
  rep m l h → e ∈ l → h !! e = Some ent →
  omap (λ x, key <$> h !! x) (List_Remove e l)
  = filter (λ x, x ≠ key ent) (omap (λ x, key <$> h !! x) l).
Proof.
  intros Hr Hin He.
  assert (∀ l', l' ⊆ l →
            omap (λ x, key <$> h !! x) (List_Remove e l')
            = filter (λ x, x ≠ key ent) (omap (λ x, key <$> h !! x) l'))
    as Hgen; [|by apply Hgen].
  induction l' as [|x l' IH]; intros Hsub; [done|].
  destruct (rep_heap _ _ _ Hr x) as [entx Hx]; [set_solver|].
  unfold List_Remove in *. cbn [omap list_omap]. rewrite Hx.
  cbn [fmap option_fmap option_map].
  destruct (decide (x = e)) as [->|Hne].
  - assert (entx = ent) as -> by congruence.
    rewrite filter_cons_False, filter_cons_False by naive_solver.
    apply IH. set_solver.
  - assert (key entx ≠ key ent) as Hkne.
    { intros Heq. apply Hne.
      apply (rep_unique m l h (key ent) x e Hr); [set_solver|done| |].
      - rewrite Hx. cbn. by rewrite Heq.
      - by rewrite He. }
    rewrite filter_cons_True, filter_cons_True by done.
    cbn [omap list_omap]. rewrite Hx. cbn [fmap option_fmap option_map].
    f_equal. apply IH. set_solver.
Qed.

Lemma filter_ne_notin (k : K) (ks : list K) :
  k ∉ ks → filter (λ x, x ≠ k) ks = ks.
Proof.
  induction ks as [|x ks IH]; [done|].
  rewrite not_elem_of_cons. intros [Hne Hks].
  rewrite filter_cons_True by done. by rewrite IH.
Qed.

Lemma wf_elem_of_entryKeys k s :
  wf s → k ∈ entryKeys s ↔ is_Some (items (cache s) !! k).
Proof.
  intros Hwf. rewrite <- elem_of_dom, wf_dom by done.
  by rewrite elem_of_list_to_set.
Qed.

Lemma wf_entryKeys_elem_of' k s :
  wf s → k ∈ entryKeys s → is_Some (items (cache s) !! k).
Proof. intros Hwf. by apply wf_elem_of_entryKeys. Qed.

Lemma wf_entryOf k s ent :
  wf s → entryOf k s = Some ent → key ent = k.
Proof.
  intros Hwf. unfold entryOf.
  destruct (items (cache s) !! k) as [e|] eqn:Hk; [|done]. cbn.
  destruct (wf_lookup s k e Hwf Hk) as (_ & ent' & He & Hkey). congruence.
Qed.

Lemma wf_entryOf_is_Some k s :
  wf s → is_Some (entryOf k s) ↔ is_Some (items (cache s) !! k).
Proof.
  intros Hwf. unfold entryOf.
  destruct (items (cache s) !! k) as [e|] eqn:Hk; cbn.
  - destruct (wf_lookup s k e Hwf Hk) as (_ & ent & -> & _).
    split; eauto.
  - split; by intros [? ?].
Qed.

(** What [deleteElement] leaves of the other keys. *)
Lemma deleted_entryOf_other k e ent s :
  key ent ≠ k →
  entryOf k (set_cache (deleted e ent (cache s)) s) = entryOf k s.
Proof. intros Hne. unfold entryOf. cbn. by rewrite lookup_delete_ne. Qed.

(** ** [New] *)

(** X1: [New] panics exactly when the capacity is not positive, an age
    is negative, or the minimum age is above the maximum age.  The cache
    it returns otherwise is empty, with all counters at zero, the
    capacity and the maximum age of the configuration, and its minimum
    age, or the maximum age where the minimum age given is zero. *)
Theorem New_validates (config : Config K V W) (seed : R) :
  match New config seed with
  | Panic _ =>
      Capacity config ≤ 0 ∨ MaxAge config < 0 ∨ MinAge config < 0
      ∨ MinAge config > MaxAge config
  | Ok c =>
      (0 < Capacity config ∧ 0 ≤ MinAge config ≤ MaxAge config)
      ∧ (∀ w : W, Len (start c w) = Some (0, start c w))
      ∧ items c = ∅
      ∧ counters_of c = [0; 0; 0; 0; 0]
      ∧ settings_of c
        = (Capacity config,
           if decide (MinAge config = 0) then MaxAge config
           else MinAge config,
           MaxAge config)
      ∧ onEviction c = OnEviction config
      ∧ onExpiration c = OnExpiration config
      ∧ rand c = seed
  end.
Proof.
  unfold New.
  repeat (destruct (decide _) as [?|?]; [lia|]).
  split_and!; try done; lia.
Qed.

Lemma New_validates_counters (config : Config K V W) (seed : R) c :
  New config seed = Ok c → counters_of c = [0; 0; 0; 0; 0].
Proof.
  unfold New. repeat (destruct (decide _) as [?|?]; [done|]).
  by intros [= <-].
Qed.

(** ** [Remove] *)

(** X2: [Remove] reports whether the key was in the cache.  After it the
    key is gone, the other keys have their entries and their order, no
    callback was called and no counter has moved. *)
Theorem Remove_spec k s :
  wf s →
  ∃ b s', Remove k s = Some (b, s') ∧ wf s'
    ∧ (b = true ↔ k ∈ dom (items (cache s)))
    ∧ items (cache s') = delete k (items (cache s))
    ∧ entryKeys s' = filter (λ x, x ≠ k) (entryKeys s)
    ∧ Has k s' = Some (false, s')
    ∧ (∀ k', k' ≠ k → entryOf k' s' = entryOf k' s)
    ∧ world s' = world s
    ∧ counters_of (cache s') = counters_of (cache s)
    ∧ settings_of (cache s') = settings_of (cache s).
Proof.
  intros Hwf. destruct (items (cache s) !! k) as [e|] eqn:Hk.
  - destruct (wf_lookup s k e Hwf Hk) as (Hin & ent & He & Hkey).
    rewrite (Remove_run_present k e ent) by done.
    eexists _, _. split; [done|]. split; [by apply wf_deleted|].
    split_and!; try done.
    + rewrite elem_of_dom, Hk. naive_solver.
    + cbn. by rewrite Hkey.
    + unfold entryKeys. cbn. rewrite <- Hkey.
      by eapply rep_entryKeys_remove.
    + rewrite Has_run. cbn. rewrite Hkey, lookup_delete_eq.
      by rewrite bool_decide_eq_false_2 by (by intros [? ?]).
    + intros k' Hne. apply deleted_entryOf_other. congruence.
  - rewrite Remove_run_absent by done.
    exists false, s. split_and!; try done.
    + rewrite elem_of_dom, Hk. split; [done|]. by intros [? ?].
    + by rewrite delete_id.
    + rewrite filter_ne_notin; [done|].
      rewrite wf_elem_of_entryKeys, Hk by done. by intros [? ?].
    + rewrite Has_run, Hk.
      by rewrite bool_decide_eq_false_2 by (by intros [? ?]).
Qed.

(** ** [EvictOldest] *)

Lemma EvictOldest_takes_oldest s :
  wf s →
  ∃ b s' keys,
    EvictOldest s = Some (b, s') ∧ wf s'
    ∧ OrderedKeys s = Some (Ok keys, s)
    ∧ match keys with
      | [] => b = false ∧ s' = s
      | k0 :: ks =>
          b = true
          ∧ OrderedKeys s' = Some (Ok ks, s')
          ∧ (∃ ent0, entryOf k0 s = Some ent0
               ∧ world s'
                 = call (onEviction (cache s)) k0 (value ent0) (world s))
          ∧ entryOf k0 s' = None
          ∧ (∀ k', k' ≠ k0 → entryOf k' s' = entryOf k' s)
          ∧ counters_of (cache s')
            = [sets (cache s); gets (cache s); hits (cache s);
               misses (cache s); incr64 (evictions (cache s))]
          ∧ settings_of (cache s') = settings_of (cache s)
      end.
Proof.
  intros Hwf. unfold EvictOldest.
  destruct (evictOldest_wf s Hwf) as
    [[Hnil Hrun]|(l & e & ent & Hl & He & Hke & Hrun & Hl' & Hwf')].
  - exists false, s, []. split_and!; try done.
    rewrite OrderedKeys_run by done. unfold entryKeys. by rewrite Hnil.
  - exists true, (evicted e ent s), (key ent :: reverse
      (omap (λ x, key <$> heap s !! x) l)).
    split; [done|]. split; [done|]. split.
    { rewrite OrderedKeys_run by done.
      by rewrite (entryKeys_back l e ent), reverse_snoc. }
    split_and!; try done.
    + rewrite OrderedKeys_run by done. unfold entryKeys. by rewrite Hl'.
    + exists ent. split; [|done]. unfold entryOf. by rewrite Hke.
    + unfold entryOf. cbn. by rewrite lookup_delete_eq.
    + intros k' Hne. unfold entryOf. cbn. by rewrite lookup_delete_ne.
Qed.

(** X3: [EvictOldest] on an empty cache returns false and changes
    nothing.  On any other it returns true and takes out the first key of
    [OrderedKeys], the least recently used: the other keys keep their
    entries and their order, the eviction callback is called once with
    the key and its value, and the evictions counter alone moves, by
    one. *)
Theorem EvictOldest_spec s :
  wf s →
  ∃ b s' keys,
    EvictOldest s = Some (b, s') ∧ wf s'
    ∧ OrderedKeys s = Some (Ok keys, s)
    ∧ match keys with
      | [] => b = false ∧ s' = s
      | k0 :: ks =>
          b = true
          ∧ OrderedKeys s' = Some (Ok ks, s')
          ∧ (∃ ent0, entryOf k0 s = Some ent0
               ∧ world s'
                 = match onEviction (cache s) with
                   | Some callback => callback k0 (value ent0) (world s)
                   | None => world s
                   end)
          ∧ entryOf k0 s' = None
          ∧ (∀ k', k' ≠ k0 → entryOf k' s' = entryOf k' s)
          ∧ counters_of (cache s')
            = [sets (cache s); gets (cache s); hits (cache s);
               misses (cache s);
               (evictions (cache s) + 1 + 2 ^ 63) mod 2 ^ 64 - 2 ^ 63]
          ∧ settings_of (cache s') = settings_of (cache s)
      end.
Proof.
  exact (EvictOldest_takes_oldest s).
Qed.

(** ** [Clear] *)

Lemma Clear_range_frame order s s' :
  Clear_range order s = Some ((), s') →
  counters_of (cache s') = counters_of (cache s)
  ∧ settings_of (cache s') = settings_of (cache s)
  ∧ heap s' = heap s
  ∧ onEviction (cache s') = onEviction (cache s)
  ∧ onExpiration (cache s') = onExpiration (cache s).
Proof.
  revert s. induction order as [|k order IH]; intros s.
  - by intros [= <-].
  - cbn [Clear_range]. unfold Clear_visit, deleteElement. mrun.
    destruct (items (cache s) !! k) as [e|].
    + destruct (heap s !! e) as [ent|]; [|done].
      intros Hrun. by apply IH in Hrun.
    + intros Hrun. by apply IH in Hrun.
Qed.

(** X4: [Clear] empties the cache: the length is zero and no key is
    there.  It calls no callback and leaves counters and settings as they
    were. *)
Theorem Clear_spec order s :
  wf s → order ≡ₚ elements (dom (items (cache s))) →
  ∃ s', Clear order s = Some ((), s') ∧ wf s'
    ∧ Len s' = Some (0, s')
    ∧ OrderedKeys s' = Some (Ok [], s')
    ∧ (∀ k, Has k s' = Some (false, s'))
    ∧ world s' = world s
    ∧ counters_of (cache s') = counters_of (cache s)
    ∧ settings_of (cache s') = settings_of (cache s).
Proof.
  intros Hwf Horder.
  destruct (Clear_wf order s Hwf Horder) as (s' & Hrun & Hwf' & Hm & Hl & Hw).
  exists s'. split; [done|]. split; [done|].
  assert (counters_of (cache s') = counters_of (cache s)
          ∧ settings_of (cache s') = settings_of (cache s)) as [Hc Hs].
  { unfold Clear in Hrun. revert Hrun. mrun.
    destruct (Clear_range order s) as [[[] s1]|] eqn:Hr; [|done].
    intros [= <-]. by apply Clear_range_frame in Hr as (? & ? & _). }
  split_and!; try done.
  - unfold Len. mrun. unfold Len_of, List_Len. by rewrite Hl.
  - rewrite OrderedKeys_run by done. unfold entryKeys. by rewrite Hl.
  - intros k. rewrite Has_run, Hm, lookup_empty.
    by rewrite bool_decide_eq_false_2 by (by intros [? ?]).
Qed.

(** ** [Keys] and [OrderedKeys] *)

Lemma Keys_range_fill (order : list K) i (keys : list K) :
  (i + length order = length keys)%nat →
  Keys_range order i keys = Ok (take i keys ++ order).
Proof.
  revert i keys. induction order as [|k order IH]; intros i keys Hlen.
  - cbn in *. rewrite take_ge by lia. by rewrite app_nil_r.
  - cbn in *. rewrite decide_True by lia.
    rewrite IH by (rewrite length_insert; lia).
    rewrite (take_S_r _ _ k) by (apply list_lookup_insert_eq; lia).
    rewrite take_insert_ge by lia. by rewrite <- app_assoc.
Qed.

Lemma Keys_fill order s :
  wf s → order ≡ₚ elements (dom (items (cache s))) →
  ∃ ordered,
    Keys order s = Some (Ok order, s)
    ∧ OrderedKeys s = Some (Ok ordered, s)
    ∧ ordered ≡ₚ order
    ∧ NoDup ordered
    ∧ Len s = Some (Z.of_nat (length ordered), s)
    ∧ ∀ k, Has k s = Some (bool_decide (k ∈ ordered), s).
Proof.
  intros Hwf Horder. exists (reverse (entryKeys s)).
  assert (NoDup (entryKeys s)) as Hnd by (by eapply rep_entryKeys_NoDup).
  split_and!.
  - unfold Keys. mrun. rewrite Keys_range_fill; [done|].
    rewrite length_replicate, Horder. cbn.
    exact (size_dom (items (cache s))).
  - by apply OrderedKeys_run.
  - rewrite reverse_Permutation, Horder. apply NoDup_Permutation.
    + done.
    + apply NoDup_elements.
    + intros k. by rewrite elem_of_elements, wf_dom, elem_of_list_to_set.
  - by rewrite reverse_Permutation.
  - unfold Len. mrun. rewrite length_reverse, wf_entryKeys_length by done.
    done.
  - intros k. rewrite Has_run. do 2 f_equal. apply bool_decide_ext.
    by rewrite elem_of_reverse, wf_elem_of_entryKeys.
Qed.

(** X5: [Keys] and [OrderedKeys] return without a write out of range,
    and leave the state as it is.  [Keys] returns the keys in the order
    in which the map gave them, with no zero value left in the slice;
    [OrderedKeys] returns the same keys in the order of their use; no key
    comes twice, there are as many as [Len] counts, and they are the keys
    for which [Has] is true. *)
Theorem Keys_OrderedKeys order s :
  wf s → order ≡ₚ elements (dom (items (cache s))) →
  ∃ ordered,
    Keys order s = Some (Ok order, s)
    ∧ OrderedKeys s = Some (Ok ordered, s)
    ∧ ordered ≡ₚ order
    ∧ NoDup ordered
    ∧ Len s = Some (Z.of_nat (length ordered), s)
    ∧ ∀ k, Has k s = Some (bool_decide (k ∈ ordered), s).
Proof.
  exact (Keys_fill order s).
Qed.

(** ** [Has] and [Peek] *)

(** X6: [Has] and [Peek] agree on whether a key is there, and neither
    looks at the age of the entry: [Peek] finds the value of every key of
    the index, of an expired entry as of any other, and returns the zero
    value for a key that is not there. *)
Theorem Has_Peek_agree k s :
  wf s →
  ∃ b r, Has k s = Some (b, s) ∧ Peek k s = Some (r, s)
    ∧ r.2 = b
    ∧ (b = true ↔ k ∈ dom (items (cache s)))
    ∧ match entryOf k s with
      | Some ent => b = true ∧ r.1 = value ent
      | None => b = false ∧ r.1 = zero
      end.
Proof.
  intros Hwf. rewrite Has_run. unfold entryOf.
  destruct (items (cache s) !! k) as [e|] eqn:Hk.
  - destruct (wf_lookup s k e Hwf Hk) as (Hin & ent & He & Hkey).
    rewrite (Peek_run_present k e ent) by done.
    rewrite bool_decide_eq_true_2 by eauto.
    eexists _, _. split; [done|]. split; [done|]. cbn. rewrite He.
    split_and!; try done. rewrite elem_of_dom, Hk. naive_solver.
  - rewrite Peek_run_absent by done.
    rewrite bool_decide_eq_false_2 by (by intros [? ?]).
    eexists _, _. split; [done|]. split; [done|]. cbn.
    split_and!; try done. rewrite elem_of_dom, Hk.
    split; [done|]. by intros [? ?].
Qed.

(** ** [Get] *)

(** X7: [Get] finds a key exactly when it is there with an entry that
    has not expired.  It counts a get each time, and a hit or a miss
    after what it found; it returns the zero value with a miss; it leaves
    the entries of the other keys, the sets and evictions counters and
    the settings as they were, and never adds a key. *)
Theorem Get_spec now k s :
  wf s → 0 ≤ maxAge (cache s) →
  ∃ r s', Get now k s = Some (r, s') ∧ wf s'
    ∧ (r.2 = true
       ↔ ∃ ent, entryOf k s = Some ent ∧ ¬ expired (cache s) now ent)
    ∧ (if r.2 then entryOf k s' = entryOf k s ∧ world s' = world s
       else r.1 = zero ∧ entryOf k s' = None)
    ∧ counters_of (cache s')
      = [sets (cache s);
         (gets (cache s) + 1 + 2 ^ 63) mod 2 ^ 64 - 2 ^ 63;
         if r.2 then (hits (cache s) + 1 + 2 ^ 63) mod 2 ^ 64 - 2 ^ 63
         else hits (cache s);
         if r.2 then misses (cache s)
         else (misses (cache s) + 1 + 2 ^ 63) mod 2 ^ 64 - 2 ^ 63;
         evictions (cache s)]
    ∧ (∀ k', k' ≠ k → entryOf k' s' = entryOf k' s)
    ∧ dom (items (cache s')) ⊆ dom (items (cache s))
    ∧ settings_of (cache s') = settings_of (cache s).
Proof.
  intros Hwf Hage. unfold entryOf.
  destruct (items (cache s) !! k) as [e|] eqn:Hk.
  - destruct (wf_lookup s k e Hwf Hk) as (Hin & ent & He & Hkey).
    destruct (decide (expired (cache s) now ent)) as [Hexp|Hfresh].
    + rewrite (Get_run_expired now k e ent); [|done..|by apply expired_iff].
      eexists _, _. split; [done|]. split; [by apply wf_lapsed|].
      cbn. split_and!; try done.
      * split; [done|]. rewrite He. intros (? & [= <-] & ?). done.
      * by rewrite Hkey, lookup_delete_eq.
      * intros k' Hne. rewrite lookup_delete_ne; [done|congruence].
      * rewrite dom_delete_L. set_solver.
    + rewrite (Get_run_hit now k e ent);
        [|done..|unfold expired in *; lia].
      eexists _, _. split; [done|]. split; [by apply wf_hit|].
      cbn. rewrite ?Hk. cbn. split_and!; try done.
      split; [|done]. intros _. rewrite He. eauto.
  - rewrite Get_run_absent by done.
    eexists _, _. split; [done|]. split; [done|].
    cbn. split_and!; try done.
    + split; [done|]. by intros (? & ? & _).
    + by rewrite Hk.
Qed.

(** ** [Set] and the order of use *)

Lemma entryKeys_touched now k v e ent s :
  wf s → items (cache s) !! k = Some e → heap s !! e = Some ent →
  entryKeys (touched now v e ent s)
  = k :: filter (λ x, x ≠ k) (entryKeys s).
Proof.
  intros Hwf Hk He.
  destruct (wf_lookup s k e Hwf Hk) as (Hin & ent' & He' & Hkey).
  assert (ent' = ent) as -> by congruence.
  set (ent2 := {| key := key ent; value := v;
                  timestamp := stamp now (cache s) |}).
  pose proof (rep_assign _ _ _ e ent v (stamp now (cache s)) Hwf He) as Hr.
  fold ent2 in Hr.
  pose proof (rep_entryKeys_move _ _ _ e ent2 Hr Hin
                ltac:(by rewrite lookup_insert_eq)) as Hmove.
  unfold entryKeys, touched. cbn. fold ent2. rewrite Hmove. cbn. rewrite Hkey.
  do 2 f_equal. apply list_omap_ext, Forall2_same_length_lookup.
  split; [done|]. intros i x y Hx Hy. assert (x = y) as <- by congruence.
  destruct (decide (e = x)) as [<-|Hne].
  - by rewrite lookup_insert_eq, He.
  - by rewrite lookup_insert_ne.
Qed.

Lemma Set_reorders now k v s :
  wf s → 0 < capacity (cache s) →
  Len_of (cache s) ≤ capacity (cache s) →
  ∃ b s', Set_ now k v s = Some (b, s') ∧ wf s'
    ∧ entryKeys s'
      = take (Z.to_nat (capacity (cache s)))
             (k :: filter (λ x, x ≠ k) (entryKeys s))
    ∧ OrderedKeys s' = Some (Ok (reverse (entryKeys s')), s')
    ∧ Peek k s' = Some ((v, true), s')
    ∧ (∀ k', k' ≠ k → k' ∈ entryKeys s' → entryOf k' s' = entryOf k' s)
    ∧ sets (cache s') = incr64 (sets (cache s))
    ∧ gets (cache s') = gets (cache s)
    ∧ hits (cache s') = hits (cache s)
    ∧ misses (cache s') = misses (cache s)
    ∧ settings_of (cache s') = settings_of (cache s).
Proof.
  intros Hwf Hcap Hlen.
  destruct (Set_entry now k v s Hwf Hcap)
    as (b0 & s0 & Hrun0 & Hwf0 & Hent0 & _).
  assert (Peek k s0 = Some ((v, true), s0)) as Hpeek.
  { unfold entryOf in Hent0.
    destruct (items (cache s0) !! k) as [e|] eqn:Hk; [|done].
    by rewrite (Peek_run_present k e _ s0 Hk Hent0). }
  pose proof (OrderedKeys_run s0 Hwf0) as Hkeys.
  pose proof (wf_entryKeys_length s Hwf) as Hlen0.
  unfold Len_of, List_Len in Hlen.
  destruct (items (cache s) !! k) as [e|] eqn:Hk.
  - destruct (wf_lookup s k e Hwf Hk) as (Hin & ent & He & Hkey).
    rewrite (Set_run_present now k v e ent) in Hrun0 |- * by done.
    injection Hrun0 as <- <-.
    eexists _, _. split; [done|]. split; [done|].
    pose proof (entryKeys_touched now k v e ent s Hwf Hk He) as Hek.
    split_and!; try done.
    + rewrite <- Hek. rewrite take_ge; [done|].
      rewrite (wf_entryKeys_length _ Hwf0). cbn.
      rewrite List_MoveToFront_length by apply Hwf. lia.
    + intros k' Hne _. unfold entryOf, touched. cbn.
      destruct (items (cache s) !! k') as [e'|] eqn:Hk'; [|done]. cbn.
      rewrite lookup_insert_ne; [done|]. intros <-.
      destruct (wf_lookup s k' e Hwf Hk') as (_ & ent' & He' & Hkey').
      congruence.
  - assert (k ∉ entryKeys s) as Hnotin.
    { rewrite wf_elem_of_entryKeys, Hk by done. by intros [? ?]. }
    destruct (Set_absent_wf now k v s Hwf Hcap Hk) as
      [[Hlt Hrun]|(Hge & l & e & ent & Hl & He & Hke & Hne & He1 & Hrun
                   & Hl' & Hwf')];
      rewrite Hrun in Hrun0 |- *; injection Hrun0 as <- <-.
    + eexists _, _. split; [done|]. split; [done|].
      split_and!; try done.
      * rewrite entryKeys_inserted, filter_ne_notin by done.
        rewrite take_ge; [done|]. cbn. unfold Len_of, List_Len in Hlt. lia.
      * intros k' Hk' _. unfold entryOf, inserted. cbn.
        rewrite lookup_insert_ne by done.
        destruct (items (cache s) !! k') as [e'|] eqn:Hke'; [|done]. cbn.
        rewrite lookup_insert_ne; [done|]. intros <-.
        destruct (wf_lookup s k' _ Hwf Hke') as (Hin & _).
        by apply (fresh_not_in_list s Hwf).
    + eexists _, _. split; [done|]. split; [done|].
      assert (entryKeys (evicted e ent (inserted now k v s))
              = k :: omap (λ x, key <$> heap s !! x) l) as Hek.
      { unfold entryKeys. rewrite Hl'.
        cbn [omap list_omap evicted heap set_world set_cache
               inserted set_heap].
        rewrite lookup_insert_eq. cbn [fmap option_fmap option_map key].
        f_equal. apply entryKeys_omap_insert.
        pose proof (fresh_not_in_list s Hwf) as Hf. rewrite Hl in Hf.
        set_solver. }
      pose proof (entryKeys_back l e ent s Hl He) as Hback.
      split_and!; try done.
      * rewrite Hek, filter_ne_notin, Hback by done.
        unfold Len_of, List_Len in Hge.
        rewrite Hl, length_app in Hlen, Hge. cbn in Hlen, Hge.
        assert (length (omap (λ x, key <$> heap s !! x) l) = length l)
          as Hll.
        { apply rep_entryKeys_length. intros x Hx.
          apply (rep_heap _ _ _ Hwf). rewrite Hl. set_solver. }
        replace (Z.to_nat (capacity (cache s))) with (S (length l)) by lia.
        cbn. f_equal. rewrite take_app_le by lia.
        by rewrite take_ge by lia.
      * intros k' Hk' Hin. unfold entryOf, evicted, inserted. cbn.
        assert (k' ≠ key ent) as Hk'e.
        { intros ->. rewrite Hek in Hin.
          apply elem_of_cons in Hin as [?|Hin]; [done|].
          pose proof (rep_entryKeys_NoDup _ _ _ Hwf) as Hnd.
          fold (entryKeys s) in Hnd. rewrite Hback in Hnd.
          apply NoDup_app in Hnd as (_ & Hd & _).
          apply (Hd _ Hin). by left. }
        rewrite lookup_delete_ne, lookup_insert_ne by done.
        destruct (items (cache s) !! k') as [e'|] eqn:Hke'; [|done]. cbn.
        rewrite lookup_insert_ne; [done|]. intros <-.
        destruct (wf_lookup s k' _ Hwf Hke') as (Hin' & _).
        by apply (fresh_not_in_list s Hwf).
Qed.

(** X8: what [Set] does to the order of use, on a cache within its
    capacity: the key goes to the front, from where it was if it was
    there, and the order is cut at the capacity, which drops the key at
    the back if the cache was full and the key new.  The key then has the
    value set, whatever the age; the keys that stay keep their entries;
    the sets counter alone moves, but for an eviction. *)
Theorem Set_order now k v s :
  wf s → 0 < capacity (cache s) →
  Len_of (cache s) ≤ capacity (cache s) →
  ∃ b s', Set_ now k v s = Some (b, s') ∧ wf s'
    ∧ entryKeys s'
      = take (Z.to_nat (capacity (cache s)))
             (k :: filter (λ x, x ≠ k) (entryKeys s))
    ∧ OrderedKeys s' = Some (Ok (reverse (entryKeys s')), s')
    ∧ Peek k s' = Some ((v, true), s')
    ∧ (∀ k', k' ≠ k → k' ∈ entryKeys s' → entryOf k' s' = entryOf k' s)
    ∧ sets (cache s') = (sets (cache s) + 1 + 2 ^ 63) mod 2 ^ 64 - 2 ^ 63
    ∧ gets (cache s') = gets (cache s)
    ∧ hits (cache s') = hits (cache s)
    ∧ misses (cache s') = misses (cache s)
    ∧ settings_of (cache s') = settings_of (cache s).
Proof.
  exact (Set_reorders now k v s).
Qed.




(** ** What the operations leave alone *)

Lemma Resize_loop_frame i s s' :
  Resize_loop i s = Some ((), s') →
  settings_of (cache s') = settings_of (cache s)
  ∧ sets (cache s') = sets (cache s)
  ∧ gets (cache s') = gets (cache s)
  ∧ hits (cache s') = hits (cache s)
  ∧ misses (cache s') = misses (cache s)
  ∧ heap s' = heap s.
Proof.
  revert s. induction i as [|i IH]; intros s.
  - by intros [= <-].
  - cbn [Resize_loop]. unfold evictOldest, deleteElement. mrun.
    intros Hrun. crack; try done; by apply IH in Hrun.
Qed.

(** The settings change with [Resize], [SetMaxAge] and [SetMinAge]
    only, and to valid ones; the gets, hits and misses counters move
    with [Get] only. *)
Lemma exec_frame op s s' :
  exec op s = Some ((), s') →
  match op with
  | OpResize n =>
      settings_of (cache s') = settings_of (cache s)
      ∨ 0 < n ∧ settings_of (cache s')
                = (n, minAge (cache s), maxAge (cache s))
  | OpSetMaxAge d =>
      settings_of (cache s') = settings_of (cache s)
      ∨ 0 ≤ d ∧ minAge (cache s) ≤ d
        ∧ settings_of (cache s')
          = (capacity (cache s), minAge (cache s), d)
  | OpSetMinAge d =>
      settings_of (cache s') = settings_of (cache s)
      ∨ 0 ≤ d ≤ maxAge (cache s)
        ∧ settings_of (cache s')
          = (capacity (cache s),
             if decide (d = 0) then maxAge (cache s) else d,
             maxAge (cache s))
  | _ => settings_of (cache s') = settings_of (cache s)
  end
  ∧ match op with
    | OpGet _ _ =>
        gets (cache s') = incr64 (gets (cache s))
        ∧ (hits (cache s') = incr64 (hits (cache s))
           ∧ misses (cache s') = misses (cache s)
           ∨ hits (cache s') = hits (cache s)
             ∧ misses (cache s') = incr64 (misses (cache s)))
    | _ =>
        gets (cache s') = gets (cache s)
        ∧ hits (cache s') = hits (cache s)
        ∧ misses (cache s') = misses (cache s)
    end.
Proof.
  destruct op; cbn [exec]; unfold discard.
  - unfold Set_, getTimestamp, evictOldest, deleteElement. mrun.
    intros Hrun. crack; done.
  - unfold Get, deleteElement. mrun. intros Hrun. crack; naive_solver.
  - unfold Remove, deleteElement. mrun. intros Hrun. crack; done.
  - unfold EvictOldest, evictOldest, deleteElement. mrun.
    intros Hrun. crack; done.
  - unfold Clear. mrun.
    destruct (Clear_range order s) as [[[] s1]|] eqn:Hr; [|done].
    intros [= <-]. apply Clear_range_frame in Hr as (Hc & Hs & _).
    unfold counters_of in Hc. cbn. injection Hc as ? ? ? ? ?. done.
  - unfold Resize. destruct (decide (n ≤ 0)); mrun.
    { intros [= <-]. split; [by left|done]. }
    destruct (Resize_loop _ _) as [[[] s1]|] eqn:Hr; [|done].
    intros [= <-]. apply Resize_loop_frame in Hr as (Hs & ? & ? & ? & ? & _).
    split; [|done]. right. split; [lia|]. by rewrite Hs.
  - unfold SetMaxAge. mrun. intros Hrun. crack; split; try done;
      [by left|by left|right; split_and!; [lia..|done]].
  - unfold SetMinAge. mrun. intros Hrun. crack; split; try done.
    all: try (by left).
    all: right; split; [lia|]; unfold settings_of; cbn;
      by rewrite ?decide_True, ?decide_False by done.
  - unfold Cache_OnEviction. mrun. by intros [= <-].
  - unfold Cache_OnExpiration. mrun. by intros [= <-].
  - unfold deleteExpired_visit, deleteElement. mrun. intros Hrun. crack; done.
Qed.

Lemma reachable_settings_valid config seed w s :
  reachable config seed w s →
  0 < capacity (cache s) ∧ 0 ≤ minAge (cache s) ≤ maxAge (cache s)
  ∧ (0 < MaxAge config → 0 < minAge (cache s)).
Proof.
  induction 1 as [c Hnew|op s s' _ IH Hadm Hrun].
  - apply New_empty in Hnew as (_ & _ & _ & ? & Hmax & ? & Hmin & _).
    cbn. split_and!; [lia..|]. intros Hpos. rewrite Hmin.
    destruct (decide _); lia.
  - destruct IH as (Hc & Hages & Hpos).
    apply exec_frame in Hrun as [Hset _]. unfold settings_of in Hset.
    destruct op; try (injection Hset as -> -> ->; done).
    + destruct Hset as [Hset|[? Hset]]; injection Hset as -> -> ->; done.
    + destruct Hset as [Hset|(? & ? & Hset)]; injection Hset as -> -> ->;
        [done|]. split_and!; [done|lia..|done].
    + destruct Hset as [Hset|(? & Hset)]; injection Hset as -> -> ->;
        [done|]. destruct (decide (d = 0)); split_and!; try done; lia.
Qed.

(** X10: every state that a cache reaches has a positive capacity and a
    minimum age between zero and the maximum age, whatever was asked of
    [Resize], [SetMaxAge] and [SetMinAge]; so [getTimestamp] asks the
    generator for a number below a positive bound whenever it draws. *)
Theorem reachable_settings config seed w s :
  reachable config seed w s →
  0 < capacity (cache s) ∧ 0 ≤ minAge (cache s) ≤ maxAge (cache s)
  ∧ (minAge (cache s) ≠ maxAge (cache s) →
     0 < maxAge (cache s) - minAge (cache s)).
Proof.
  intros (? & ? & _)%reachable_settings_valid. split_and!; lia.
Qed.

(** X11: a cache built with a positive maximum age keeps a positive
    minimum age, so that [SetMaxAge(0)], which would turn expiration off,
    returns an error in every state it reaches and changes nothing. *)
Theorem expiration_stays_on config seed w s :
  reachable config seed w s → 0 < MaxAge config →
  0 < minAge (cache s) ≤ maxAge (cache s)
  ∧ ∃ msg, SetMaxAge 0 s = Some (Some msg, s).
Proof.
  intros (_ & ? & Hmin)%reachable_settings_valid Hpos.
  specialize (Hmin Hpos). split; [lia|].
  unfold SetMaxAge. mrun. rewrite decide_False, decide_True by lia.
  by eexists.
Qed.

(** ** The counters *)

Lemma wrap64_add_l a b : wrap64 (wrap64 a + b) = wrap64 (a + b).
Proof.
  unfold wrap64. f_equal.
  replace ((a + 2 ^ 63) `mod` 2 ^ 64 - 2 ^ 63 + b + 2 ^ 63)
    with ((a + 2 ^ 63) `mod` 2 ^ 64 + b) by lia.
  rewrite Zplus_mod_idemp_l. f_equal. lia.
Qed.

Lemma add64_incr64_l a b : add64 (incr64 a) b = incr64 (add64 a b).
Proof.
  unfold incr64, add64. rewrite !wrap64_add_l. f_equal. lia.
Qed.

Lemma add64_incr64_r a b : add64 a (incr64 b) = incr64 (add64 a b).
Proof.
  unfold incr64, add64. rewrite wrap64_add_l.
  rewrite (Z.add_comm a), wrap64_add_l. f_equal. lia.
Qed.

(** X12: in every state that a cache reaches, the snapshot of [Stats]
    has as many gets as hits and misses together, in the arithmetic of
    [int64]; its count is the length and its capacity the capacity. *)
Theorem Stats_gets_are_hits_and_misses config seed w s :
  reachable config seed w s →
  ∃ st, Cache_Stats s = Some (st, s)
    ∧ Stats.Gets st = add64 (Stats.Hits st) (Stats.Misses st)
    ∧ Len s = Some (Stats.Count st, s)
    ∧ Stats.Capacity st = capacity (cache s).
Proof.
  intros Hr. eexists. split; [done|]. cbn. split; [|done].
  induction Hr as [c Hnew|op s s' _ IH Hadm Hrun].
  - apply New_validates_counters in Hnew. cbn.
    injection Hnew as _ -> -> -> _. done.
  - apply exec_frame in Hrun as [_ Hc].
    destruct op; try (destruct Hc as (-> & -> & ->); done).
    destruct Hc as (-> & [[-> ->]|[-> ->]]); rewrite IH.
    + by rewrite add64_incr64_l.
    + by rewrite add64_incr64_r.
Qed.

(** ** [Resize] and the capacity *)

Lemma omap_key_take h l j :
  (∀ e, e ∈ l → is_Some (h !! e)) →
  omap (λ e, key <$> h !! e) (take j l)
  = take j (omap (λ e, key <$> h !! e) l).
Proof.
  revert j. induction l as [|e l IH]; intros j Hh; [by destruct j|].
  destruct j as [|j]; [done|].
  destruct (Hh e) as [ent He]; [by left|].
  cbn [take omap list_omap]. rewrite He. cbn. f_equal.
  apply IH. intros x Hx. apply Hh. by right.
Qed.

Lemma Resize_shrinks n s :
  wf s → 0 < n ≤ maxInt64 → 0 < capacity (cache s) ≤ maxInt64 →
  Len_of (cache s) ≤ capacity (cache s) →
  ∃ s', Resize n s = Some (None, s') ∧ wf s'
    ∧ capacity (cache s') = n
    ∧ Len_of (cache s') ≤ n
    ∧ entryKeys s'
      = take (length (entryKeys s) - Z.to_nat (capacity (cache s) - n))
             (entryKeys s)
    ∧ (∀ k ent, entryOf k s' = Some ent → entryOf k s = Some ent)
    ∧ minAge (cache s') = minAge (cache s)
    ∧ maxAge (cache s') = maxAge (cache s)
    ∧ sets (cache s') = sets (cache s)
    ∧ gets (cache s') = gets (cache s)
    ∧ hits (cache s') = hits (cache s)
    ∧ misses (cache s') = misses (cache s).
Proof.
  intros Hwf Hn Hc Hlen. unfold Resize. rewrite decide_False by lia. mrun.
  rewrite sub64_exact by (unfold int64, minInt64, maxInt64 in *; lia).
  destruct (Resize_loop_run (Z.to_nat (capacity (cache s) - n))
              (set_cache (set_capacity n (cache s)) s) Hwf)
    as (s' & Hrun & Hwf' & Hl & Hcap).
  rewrite Hrun.
  apply Resize_loop_frame in Hrun as (Hset & ? & ? & ? & ? & Hheap).
  cbn in Hl, Hcap, Hset, Hheap. injection Hset as _ Hmin Hmax.
  exists s'. split; [done|]. split; [done|].
  assert (entryKeys s'
          = take (length (entryKeys s)
                  - Z.to_nat (capacity (cache s) - n)) (entryKeys s)) as Hek.
  { unfold entryKeys at 1. rewrite Hl, Hheap.
    rewrite omap_key_take by apply Hwf.
    by rewrite (wf_entryKeys_length s Hwf). }
  split_and!; try done.
  - unfold Len_of, List_Len in *. rewrite Hl, length_take. lia.
  - intros k ent. unfold entryOf.
    destruct (items (cache s') !! k) as [e|] eqn:Hk; [|done]. cbn.
    intros He.
    destruct (wf_lookup s' k e Hwf' Hk) as (Hin & ent' & He' & Hkey).
    rewrite Hl in Hin. apply subseteq_take in Hin.
    assert (items (cache s) !! k = Some e) as ->.
    { apply (rep_items _ _ _ Hwf). split; [done|].
      rewrite <- Hheap, He'. cbn. by rewrite Hkey. }
    cbn. by rewrite <- Hheap.
Qed.

(** X13: [Resize] to a positive capacity, on a cache within its
    capacity, leaves a cache within the new capacity, made of the most
    recently used entries of the old: the order of use is cut at the back
    by as much as the capacity shrinks, and the entries that stay are
    what they were.  Ages and the other counters are not touched. *)
Theorem Resize_within n s :
  wf s → 0 < n ≤ maxInt64 → 0 < capacity (cache s) ≤ maxInt64 →
  Len_of (cache s) ≤ capacity (cache s) →
  ∃ s', Resize n s = Some (None, s') ∧ wf s'
    ∧ capacity (cache s') = n
    ∧ Len_of (cache s') ≤ n
    ∧ entryKeys s'
      = take (length (entryKeys s) - Z.to_nat (capacity (cache s) - n))
             (entryKeys s)
    ∧ (∀ k ent, entryOf k s' = Some ent → entryOf k s = Some ent)
    ∧ minAge (cache s') = minAge (cache s)
    ∧ maxAge (cache s') = maxAge (cache s)
    ∧ sets (cache s') = sets (cache s)
    ∧ gets (cache s') = gets (cache s)
    ∧ hits (cache s') = hits (cache s)
    ∧ misses (cache s') = misses (cache s).
Proof.
  exact (Resize_shrinks n s).
Qed.

Lemma exec_Len op s s' :
  wf s → admissible op s → exec op s = Some ((), s') →
  match op with
  | OpSet _ _ _ | OpResize _ => True
  | _ => Len_of (cache s') ≤ Len_of (cache s)
  end.
Proof.
  intros Hwf Hadm. unfold Len_of, List_Len.
  assert (∀ e, Z.of_nat (length (List_Remove e (evictionList (cache s))))
               ≤ Z.of_nat (length (evictionList (cache s)))) as Hrem.
  { intros e. pose proof (length_filter (λ x, x ≠ e) (evictionList (cache s))).
    unfold List_Remove. lia. }
  assert (∀ e, length (List_MoveToFront e (evictionList (cache s)))
               = length (evictionList (cache s))) as Hmove.
  { intros e. apply List_MoveToFront_length, Hwf. }
  destruct op; cbn [exec]; unfold discard; [done| | | | |done|..].
  - unfold Get, deleteElement. mrun. intros Hrun. crack;
      rewrite ?Hmove; first [done|apply Hrem].
  - unfold Remove, deleteElement. mrun. intros Hrun. crack;
      first [done|apply Hrem].
  - unfold EvictOldest, evictOldest, deleteElement. mrun.
    intros Hrun. crack; first [done|apply Hrem].
  - intros Hrun.
    destruct (Clear_wf order s Hwf Hadm) as (s1 & Hrun1 & _ & _ & Hl & _).
    assert (s1 = s') as -> by congruence. rewrite Hl. cbn. lia.
  - unfold SetMaxAge. mrun. intros Hrun. crack; done.
  - unfold SetMinAge. mrun. intros Hrun. crack; done.
  - unfold Cache_OnEviction. mrun. by intros [= <-].
  - unfold Cache_OnExpiration. mrun. by intros [= <-].
  - unfold deleteExpired_visit, deleteElement. mrun. intros Hrun. crack;
      first [done|apply Hrem].
Qed.

Lemma reachable_int_reachable config seed w s :
  reachable_int config seed w s → reachable config seed w s.
Proof.
  induction 1; [by apply reachable_New|by eapply reachable_step].
Qed.

Lemma reachable_int_bounded config seed w s :
  reachable_int config seed w s →
  Len_of (cache s) ≤ capacity (cache s) ∧ capacity (cache s) ≤ maxInt64.
Proof.
  induction 1 as [c Hmax Hnew|op s s' Hr IH Hadm Hint Hrun].
  - apply New_empty in Hnew as (_ & Hl & Hc & ? & _). cbn.
    unfold Len_of, List_Len. rewrite Hl. cbn. lia.
  - pose proof (reachable_int_reachable _ _ _ _ Hr) as Hr'.
    pose proof (reachable_wf _ _ _ _ Hr') as Hwf.
    pose proof (reachable_settings_valid _ _ _ _ Hr') as (Hcap & _).
    pose proof (exec_Len op s s' Hwf Hadm Hrun) as HLen.
    pose proof (exec_frame op s s' Hrun) as [Hset _].
    destruct IH as [IHlen IHmax]. unfold settings_of in Hset.
    destruct op; try (injection Hset as Hc _ _; rewrite Hc; lia).
    + destruct (Set_bounded now k v s Hwf Hcap IHlen)
        as (b & s1 & Hrun1 & _ & Hc & Hlen1).
      cbn [exec] in Hrun. unfold discard in Hrun.
      rewrite (bind_run _ _ _ _ _ Hrun1) in Hrun. injection Hrun as <-.
      lia.
    + cbn [exec] in Hrun. cbn in Hint. unfold discard in Hrun.
      destruct (decide (n ≤ 0)) as [Hn|Hn].
      * unfold Resize in Hrun. rewrite decide_True in Hrun by done.
        injection Hrun as <-. lia.
      * destruct (Resize_shrinks n s Hwf ltac:(lia) ltac:(lia) IHlen)
          as (s1 & Hrun1 & _ & Hc & Hlen1 & _).
        rewrite (bind_run _ _ _ _ _ Hrun1) in Hrun. injection Hrun as <-.
        lia.
    + destruct Hset as [Hset|(_ & _ & Hset)]; injection Hset as Hc _ _;
        rewrite Hc; lia.
    + destruct Hset as [Hset|(_ & Hset)]; injection Hset as Hc _ _;
        rewrite Hc; lia.
Qed.

Lemma reachable_int_extend config seed w op s :
  reachable_int config seed w s → admissible op s → Op_int op →
  ∃ s', exec op s = Some ((), s') ∧ reachable_int config seed w s'.
Proof.
  intros Hr Hadm Hint.
  pose proof (reachable_wf _ _ _ _ (reachable_int_reachable _ _ _ _ Hr))
    as Hwf.
  destruct (exec_wf op s Hwf Hadm) as (s' & Hrun & _).
  exists s'. split; [done|]. by eapply reachable_int_step.
Qed.

(** X14: a cache never holds more entries than its capacity: in every
    state reached through any of the operations, with capacities that are
    values of [int], the count of the snapshot of [Stats] is at most its
    capacity. *)
Theorem Stats_count_within_capacity config seed w s :
  reachable_int config seed w s →
  ∃ st, Cache_Stats s = Some (st, s)
    ∧ 0 ≤ Stats.Count st ≤ Stats.Capacity st
    ∧ Stats.Capacity st ≤ maxInt64.
Proof.
  intros [Hlen Hmax]%reachable_int_bounded. eexists. split; [done|]. cbn.
  unfold Len_of, List_Len in *. lia.
Qed.

(** ** The expiration sweep *)

Lemma stale_ext k now s s' :
  entryOf k s' = entryOf k s → maxAge (cache s') = maxAge (cache s) →
  stale k now s' = stale k now s.
Proof.
  intros He Hm. unfold stale. rewrite He.
  destruct (entryOf k s) as [ent|]; [|done]. cbn.
  destruct (decide (expired (cache s') now ent)) as [H1|H1],
    (decide (expired (cache s) now ent)) as [H2|H2]; try done;
    unfold expired in *; rewrite Hm in *; done.
Qed.

Lemma expirations_ext s s' clock i keys :
  (∀ k, k ∈ keys → entryOf k s' = entryOf k s) →
  maxAge (cache s') = maxAge (cache s) →
  expirations s' clock i keys = expirations s clock i keys.
Proof.
  revert i. induction keys as [|k keys IH]; intros i He Hm; [done|].
  cbn. rewrite (stale_ext k _ s s') by (by try apply He; try left).
  f_equal. apply IH; [|done]. intros k' Hk'. apply He. by right.
Qed.

Lemma filter_all {A} (P : A → Prop) `{!∀ x, Decision (P x)} (l : list A) :
  (∀ x, x ∈ l → P x) → filter P l = l.
Proof.
  induction l as [|x l IH]; intros HP; [done|].
  rewrite filter_cons_True by (apply HP; by left).
  f_equal. apply IH. intros y Hy. apply HP. by right.
Qed.

Lemma filter_filter_sub {A} (P Q : A → Prop) `{!∀ x, Decision (P x)}
    `{!∀ x, Decision (Q x)} (l : list A) :
  (∀ x, P x → Q x) → filter P (filter Q l) = filter P l.
Proof.
  intros HPQ. induction l as [|x l IH]; [done|].
  destruct (decide (Q x)) as [HQ|HQ].
  - rewrite (filter_cons_True Q) by done.
    destruct (decide (P x)).
    + rewrite !(filter_cons_True P) by done. by rewrite IH.
    + rewrite !(filter_cons_False P) by done. done.
  - rewrite (filter_cons_False Q) by done.
    rewrite (filter_cons_False P) by (intros ?; by apply HQ, HPQ). done.
Qed.

(** One round of the sweep. *)
Lemma deleteExpired_visit_spec now k s :
  wf s →
  ∃ s', deleteExpired_visit now k s = Some ((), s') ∧ wf s'
    ∧ counters_of (cache s') = counters_of (cache s)
    ∧ settings_of (cache s') = settings_of (cache s)
    ∧ onExpiration (cache s') = onExpiration (cache s)
    ∧ (∀ k', k' ≠ k → entryOf k' s' = entryOf k' s)
    ∧ entryOf k s'
      = match stale k now s with
        | Some _ => None
        | None => entryOf k s
        end
    ∧ world s'
      = match stale k now s with
        | Some v => call (onExpiration (cache s)) k v (world s)
        | None => world s
        end
    ∧ entryKeys s'
      = filter (λ x, x ∈ dom (items (cache s'))) (entryKeys s)
    ∧ dom (items (cache s')) ⊆ dom (items (cache s)).
Proof.
  intros Hwf.
  assert (filter (λ x, x ∈ dom (items (cache s))) (entryKeys s)
          = entryKeys s) as Hall.
  { apply filter_all. intros x Hx. apply elem_of_dom.
    by apply wf_elem_of_entryKeys. }
  unfold deleteExpired_visit, stale, entryOf. mrun.
  destruct (items (cache s) !! k) as [e|] eqn:Hk; cbn.
  - destruct (wf_lookup s k e Hwf Hk) as (Hin & ent & He & Hkey).
    rewrite He. cbn.
    destruct (decide (expired (cache s) now ent)) as [Hexp|Hfresh].
    + rewrite (deleteElement_run e ent) by done. cbn.
      eexists. split; [done|]. split; [by apply rep_delete|].
      split_and!; try done.
      * intros k' Hne. cbn. by rewrite lookup_delete_ne by congruence.
      * cbn. by rewrite Hkey, lookup_delete_eq.
      * cbn. by rewrite Hkey.
      * unfold entryKeys. cbn.
        rewrite (rep_entryKeys_remove _ _ _ e ent Hwf Hin He).
        fold (entryKeys s). rewrite <- Hall at 1.
        rewrite list_filter_filter. apply list_filter_iff.
        intros x. rewrite dom_delete_L, Hkey. set_solver.
      * cbn. rewrite dom_delete_L. set_solver.
    + exists s. rewrite Hk. cbn. by rewrite He.
  - exists s. by rewrite Hk.
Qed.

Lemma foldl_app_calls (cb : option (Callback K V W)) (l1 l2 : list (K * V))
    (w : W) :
  foldl (λ w kv, call cb kv.1 kv.2 w) w (l1 ++ l2)
  = foldl (λ w kv, call cb kv.1 kv.2 w)
      (foldl (λ w kv, call cb kv.1 kv.2 w) w l1) l2.
Proof. apply foldl_app. Qed.

Lemma deleteExpired_range_spec clock keys i s :
  wf s → NoDup keys →
  ∃ s', deleteExpired_range clock i keys s = Some ((), s') ∧ wf s'
    ∧ counters_of (cache s') = counters_of (cache s)
    ∧ settings_of (cache s') = settings_of (cache s)
    ∧ onExpiration (cache s') = onExpiration (cache s)
    ∧ (∀ k, k ∉ keys → entryOf k s' = entryOf k s)
    ∧ (∀ j k, keys !! j = Some k →
         entryOf k s'
         = match stale k (clock (i + j)%nat) s with
           | Some _ => None
           | None => entryOf k s
           end)
    ∧ world s'
      = foldl (λ w kv, call (onExpiration (cache s)) kv.1 kv.2 w)
          (world s) (expirations s clock i keys)
    ∧ entryKeys s'
      = filter (λ x, x ∈ dom (items (cache s'))) (entryKeys s)
    ∧ dom (items (cache s')) ⊆ dom (items (cache s)).
Proof.
  revert i s. induction keys as [|k keys IH]; intros i s Hwf Hnd.
  - exists s. split_and!; try done.
    symmetry. apply filter_all. intros x Hx. apply elem_of_dom.
    by apply wf_elem_of_entryKeys.
  - apply NoDup_cons in Hnd as [Hk Hnd].
    destruct (deleteExpired_visit_spec (clock i) k s Hwf)
      as (s1 & Hrun1 & Hwf1 & Hc1 & Hs1 & Hcb1 & Ho1 & Hk1 & Hw1 & Hek1 & Hd1).
    destruct (IH (S i) s1 Hwf1 Hnd)
      as (s' & Hrun' & Hwf' & Hc' & Hs' & Hcb' & Ho' & Hk' & Hw' & Hek' & Hd').
    assert (maxAge (cache s1) = maxAge (cache s)) as Hmax
      by (by injection Hs1).
    assert (∀ k', k' ∈ keys → entryOf k' s1 = entryOf k' s) as Hsame.
    { intros k' Hin. apply Ho1. by intros ->. }
    exists s'. cbn [deleteExpired_range].
    rewrite (bind_run _ _ _ _ _ Hrun1).
    split; [done|]. split; [done|]. split_and!.
    + congruence.
    + congruence.
    + congruence.
    + intros k' Hnotin. apply not_elem_of_cons in Hnotin as [Hne Hnotin].
      rewrite Ho' by done. by apply Ho1.
    + intros [|j] k' Hj; cbn in Hj.
      * injection Hj as <-. rewrite Ho' by done.
        by rewrite Nat.add_0_r.
      * rewrite (Hk' j k' Hj).
        assert (k' ∈ keys) as Hin by (by eapply list_elem_of_lookup_2).
        rewrite (stale_ext k' _ s s1) by (by try apply Hsame).
        rewrite Hsame by done. by rewrite Nat.add_succ_r.
    + rewrite Hw', Hcb1. cbn [expirations].
      rewrite foldl_app, (expirations_ext s s1) by done. f_equal.
      rewrite Hw1. by destruct (stale k (clock i) s).
    + rewrite Hek', Hek1. apply filter_filter_sub. set_solver.
    + set_solver.
Qed.

(** X15: the sweep of [deleteExpired], run with no other call between
    its rounds, visits every key once.  It takes out the keys that are
    stale when their round comes and no other; it calls the expiration
    callback for each of them, in the order of the visit, with the value
    the key had; the keys that stay keep their entries and their order;
    no counter moves and no setting. *)
Theorem deleteExpired_sweep order clock s :
  wf s → order ≡ₚ elements (dom (items (cache s))) →
  ∃ s', deleteExpired order clock s = Some (Ok (), s') ∧ wf s'
    ∧ (∀ i k, order !! i = Some k →
         entryOf k s'
         = match stale k (clock i) s with
           | Some _ => None
           | None => entryOf k s
           end)
    ∧ dom (items (cache s')) ⊆ dom (items (cache s))
    ∧ entryKeys s'
      = filter (λ x, x ∈ dom (items (cache s'))) (entryKeys s)
    ∧ world s'
      = foldl (λ w kv, call (onExpiration (cache s)) kv.1 kv.2 w)
          (world s) (expirations s clock 0 order)
    ∧ counters_of (cache s') = counters_of (cache s)
    ∧ settings_of (cache s') = settings_of (cache s).
Proof.
  intros Hwf Horder.
  destruct (Keys_fill order s Hwf Horder) as (_ & Hkeys & _).
  assert (NoDup order) as Hnd.
  { rewrite Horder. apply NoDup_elements. }
  destruct (deleteExpired_range_spec clock order 0 s Hwf Hnd)
    as (s' & Hrun & Hwf' & Hc & Hs & _ & _ & Hk & Hw & Hek & Hd).
  exists s'. unfold deleteExpired.
  rewrite (bind_run _ _ _ _ _ Hkeys). cbn beta iota.
  rewrite (bind_run _ _ _ _ _ Hrun). done.
Qed.

(** ** The key just used *)

Lemma Get_found_front now k v s s1 :
  wf s → Get now k s = Some ((v, true), s1) →
  wf s1 ∧ ∃ rest, entryKeys s1 = k :: rest.
Proof.
  intros Hwf Hrun. destruct (items (cache s) !! k) as [e|] eqn:Hk.
  - destruct (wf_lookup s k e Hwf Hk) as (Hin & ent & He & Hkey).
    destruct (decide (maxAge (cache s) = 0
                      ∨ Since now (timestamp ent) ≤ maxAge (cache s))).
    + rewrite (Get_run_hit now k e ent) in Hrun by done.
      injection Hrun as _ <-. split; [by apply wf_hit|].
      eexists. unfold entryKeys, hit. cbn. rewrite <- Hkey.
      by eapply rep_entryKeys_move.
    + by rewrite (Get_run_expired now k e ent) in Hrun.
  - by rewrite Get_run_absent in Hrun.
Qed.

(** X17: the key that [Get] has just found, or [Set] has just set, is
    not the one that [EvictOldest] takes next, unless it is alone in the
    cache: it stays, with its entry. *)
Theorem used_key_survives_eviction now k s s1 :
  wf s → 0 < capacity (cache s) →
  Len_of (cache s) ≤ capacity (cache s) →
  (∃ v, Get now k s = Some ((v, true), s1))
  ∨ (∃ v b, Set_ now k v s = Some (b, s1)) →
  1 < Len_of (cache s1) →
  ∃ s2, EvictOldest s1 = Some (true, s2)
    ∧ Has k s2 = Some (true, s2)
    ∧ entryOf k s2 = entryOf k s1
    ∧ Len_of (cache s2) = Len_of (cache s1) - 1.
Proof.
  intros Hwf Hcap Hlen Hused Hmany.
  assert (wf s1 ∧ ∃ rest, entryKeys s1 = k :: rest) as [Hwf1 [rest Hek]].
  { destruct Hused as [[v Hrun]|(v & b & Hrun)].
    - by eapply Get_found_front.
    - destruct (Set_reorders now k v s Hwf Hcap Hlen)
        as (b' & s' & Hrun' & Hwf' & Hek & _).
      assert (s' = s1) as -> by congruence. split; [done|].
      rewrite Hek. destruct (Z.to_nat (capacity (cache s))) eqn:Hn; [lia|].
      cbn. by eexists. }
  pose proof (wf_entryKeys_length s1 Hwf1) as Hlen1.
  pose proof (rep_entryKeys_NoDup _ _ _ Hwf1) as Hnd.
  fold (entryKeys s1) in Hnd. rewrite Hek in Hlen1, Hnd.
  apply NoDup_cons in Hnd as [Hk _].
  destruct (EvictOldest_takes_oldest s1 Hwf1)
    as (b & s2 & keys & Hrun & Hwf2 & Hkeys & Hcase).
  rewrite OrderedKeys_run in Hkeys by done. injection Hkeys as <-.
  rewrite Hek, reverse_cons in Hcase.
  unfold Len_of, List_Len in Hmany. cbn in Hlen1.
  destruct (reverse rest) as [|k0 ks] eqn:Hrev.
  { apply (f_equal length) in Hrev. rewrite length_reverse in Hrev.
    cbn in Hrev. lia. }
  cbn in Hcase.
  destruct Hcase as (-> & Hkeys2 & _ & _ & Hother & _).
  assert (k ≠ k0) as Hne.
  { intros ->. apply Hk. apply elem_of_reverse. rewrite Hrev. by left. }
  exists s2. split; [done|]. rewrite (Hother k Hne).
  split_and!; [|done|].
  - rewrite Has_run. do 2 f_equal. apply bool_decide_eq_true_2.
    apply wf_entryKeys_elem_of'; [done|].
    rewrite OrderedKeys_run in Hkeys2 by done. injection Hkeys2 as Hr.
    apply elem_of_reverse. rewrite Hr. set_solver.
  - rewrite OrderedKeys_run in Hkeys2 by done. injection Hkeys2 as Hr.
    apply (f_equal length) in Hr. rewrite length_reverse in Hr.
    rewrite length_app in Hr. cbn in Hr.
    apply (f_equal length) in Hrev. rewrite length_reverse in Hrev.
    cbn in Hrev. unfold Len_of, List_Len.
    rewrite <- (wf_entryKeys_length s2 Hwf2). lia.
Qed.

(** ** The callbacks *)


(** ** A maximum age given late *)

(** X19: a cache built without expiration has a minimum age of zero,
    and [SetMaxAge] with a positive age keeps it: from then on [Set]
    draws a jitter below the whole maximum age, so that an entry can be
    stamped up to just under the maximum age before the instant of its
    [Set]. *)
Theorem late_MaxAge_jitters config seed w c d now k v :
  New config seed = Ok c → MaxAge config = 0 →
  0 < d ≤ maxInt64 → rand_in_range seed →
  ∃ s1, SetMaxAge d (start c w) = Some (None, s1)
    ∧ minAge (cache s1) = 0 ∧ maxAge (cache s1) = d
    ∧ ∃ b s2 ent r,
        Set_ now k v s1 = Some (b, s2)
        ∧ entryOf k s2 = Some ent
        ∧ r = (Int63n seed d).1
        ∧ 0 ≤ r < d
        ∧ timestamp ent = now - r.
Proof.
  intros Hnew Hzero Hd Hrand.
  pose proof Hnew as (Hm & Hl & _ & Hpos & Hmax & Hages & _ & Hseed)%New_empty.
  assert (minAge c = 0) as Hmin by lia.
  eexists. split.
  { unfold SetMaxAge. mrun. cbn.
    by rewrite !decide_False by lia. }
  cbn. split; [done|]. split; [done|].
  destruct (Set_entry now k v
              (set_cache (set_maxAge d c) (start c w)))
    as (b & s2 & HSet & _ & Hent & _);
    [by apply wf_start|done|].
  exists b, s2. eexists _, _.
  split; [exact HSet|]. split; [exact Hent|]. split; [reflexivity|].
  split; [apply Hrand; lia|].
  cbn. unfold stamp, jitterDraw, Time_Add. cbn.
  rewrite Hmin, Hseed. rewrite decide_False by lia.
  rewrite sub64_exact by (unfold int64, minInt64, maxInt64 in *; lia).
  rewrite Z.sub_0_r.
  pose proof (Hrand d ltac:(lia)).
  unfold neg64. rewrite wrap64_id; [lia|].
  unfold int64, minInt64, maxInt64 in *. lia.
Qed.

End agecache_more.

(** ** [Delta] *)

Lemma sub64_telescope (x y z : Z) :
  add64 (sub64 x y) (sub64 y z) = sub64 x z.
Proof.
  unfold add64, sub64. rewrite wrap64_add_l.
  rewrite (Z.add_comm (x - y)), wrap64_add_l. f_equal. lia.
Qed.

(** X16: the deltas of consecutive snapshots add up, in the arithmetic
    of [int64], to the delta of the first and the last, also where a
    counter has wrapped around; and a snapshot has no delta to itself. *)
Theorem Delta_telescopes (a b c : Stats.t) :
  Stats.counters (Stats.Delta a c)
  = zip_with add64 (Stats.counters (Stats.Delta a b))
                   (Stats.counters (Stats.Delta b c))
  ∧ Stats.counters (Stats.Delta a a) = [0; 0; 0; 0; 0].
Proof.
  unfold Stats.counters, Stats.Delta. cbn.
  rewrite !sub64_telescope. split; [done|].
  unfold sub64. rewrite !Z.sub_diag. done.
Qed.

(** ** The rest of the cache, on the cache of integers under string keys *)

Lemma demo_keys s :
  demo 3 10 0 [] [(100, "a", 1); (105, "b", 2); (110, "c", 3)] = Some s →
  ["a"; "b"; "c"] ≡ₚ elements (dom (items (cache s))).
Proof.
  intros Hs.
  assert (elements (dom (items (cache s))) = ["c"; "a"; "b"]) as ->.
  { apply (observe (λ s, elements (dom (items (cache s)))) _ _ _ Hs).
    vm_compute. reflexivity. }
  symmetry. apply (Permutation_cons_append ["a"; "b"] "c").
Qed.

Lemma Remove_spec_witness :
  ∃ s,
    demo 3 10 0 [] [(100, "a", 1); (105, "b", 2); (110, "c", 3)] = Some s
    ∧ wf s
    ∧ ∃ s', Remove "b" s = Some (true, s')
        ∧ entryKeys s' = filter (λ x, x ≠ "b") (entryKeys s)
        ∧ Has "b" s' = Some (false, s')
        ∧ world s' = world s.
Proof.
  destruct (demo_total 3 10 0 [] [(100, "a", 1); (105, "b", 2); (110, "c", 3)])
    as (s & Hs); [lia..|].
  pose proof (demo_wf _ _ _ _ _ _ Hs) as (Hwf & _).
  exists s. split; [exact Hs|]. split; [exact Hwf|].
  destruct (Remove_spec "b" s Hwf)
    as (b & s' & Hrun & _ & Hb & _ & Hek & Hhas & _ & Hw & _).
  assert (b = true) as ->.
  { apply Hb. apply (bool_decide_eq_true_1 _).
    apply (observe (λ s, bool_decide ("b" ∈ dom (items (cache s)))) _ _ _ Hs).
    vm_compute. reflexivity. }
  exists s'. split; [exact Hrun|]. split; [exact Hek|].
  split; [exact Hhas|exact Hw].
Defined.

Lemma EvictOldest_spec_witness :
  ∃ s,
    demo 3 10 0 [] [(100, "a", 1); (105, "b", 2); (110, "c", 3)] = Some s
    ∧ wf s
    ∧ OrderedKeys s = Some (Ok ["a"; "b"; "c"], s)
    ∧ world s = []
    ∧ counters_of (cache s) = [3; 0; 0; 0; 0]
    ∧ ∃ s', EvictOldest s = Some (true, s') ∧ wf s'
        ∧ OrderedKeys s' = Some (Ok ["b"; "c"], s')
        ∧ entryOf "a" s' = None
        ∧ world s' = [Evicted "a" 1]
        ∧ counters_of (cache s') = [3; 0; 0; 0; 1].
Proof.
  destruct (demo_total 3 10 0 [] [(100, "a", 1); (105, "b", 2); (110, "c", 3)])
    as (s & Hs); [lia..|].
  pose proof (demo_wf _ _ _ _ _ _ Hs) as (Hwf & _).
  assert (fst <$> OrderedKeys s = Some (Ok ["a"; "b"; "c"])) as Hkeys.
  { apply (observe (λ s, fst <$> OrderedKeys s) _ _ _ Hs).
    vm_compute. reflexivity. }
  assert (entryOf "a" s
          = Some {| key := "a"; value := 1; timestamp := 100 |}) as Hent.
  { apply (observe (λ s, entryOf "a" s) _ _ _ Hs). vm_compute. reflexivity. }
  assert (world s = []) as Hw0.
  { apply (observe (λ s, world s) _ _ _ Hs). vm_compute. reflexivity. }
  assert (counters_of (cache s) = [3; 0; 0; 0; 0]) as Hcnt.
  { apply (observe (λ s, counters_of (cache s)) _ _ _ Hs).
    vm_compute. reflexivity. }
  assert (onEviction (cache s) = Some (λ k v w, w ++ [Evicted k v])) as Hcb.
  { apply (observe (λ s, onEviction (cache s)) _ _ _ Hs).
    vm_compute. reflexivity. }
  destruct (EvictOldest_spec s Hwf)
    as (b & s' & keys & Hrun & Hwf' & Hok & Hres).
  rewrite Hok in Hkeys. injection Hkeys as ->.
  destruct Hres as (-> & Hok' & (ent0 & Hent0 & Hw) & Hgone & _ & Hcnt' & _).
  rewrite Hent in Hent0. injection Hent0 as <-.
  exists s. split; [exact Hs|]. split; [exact Hwf|]. split; [exact Hok|].
  split; [exact Hw0|]. split; [exact Hcnt|].
  exists s'. split; [exact Hrun|]. split; [exact Hwf'|].
  split; [exact Hok'|]. split; [exact Hgone|].
  split; [rewrite Hw, Hcb, Hw0; reflexivity|].
  unfold counters_of in Hcnt. injection Hcnt as Hs0 Hg0 Hh0 Hm0 He0.
  rewrite Hcnt', Hs0, Hg0, Hh0, Hm0, He0. reflexivity.
Defined.

Lemma Clear_spec_witness :
  ∃ s,
    demo 3 10 0 [] [(100, "a", 1); (105, "b", 2); (110, "c", 3)] = Some s
    ∧ wf s
    ∧ ["a"; "b"; "c"] ≡ₚ elements (dom (items (cache s)))
    ∧ ∃ s', Clear ["a"; "b"; "c"] s = Some ((), s') ∧ wf s'
        ∧ Len s' = Some (0, s')
        ∧ OrderedKeys s' = Some (Ok [], s')
        ∧ (∀ k, Has k s' = Some (false, s'))
        ∧ world s' = world s
        ∧ counters_of (cache s') = counters_of (cache s)
        ∧ settings_of (cache s') = settings_of (cache s).
Proof.
  destruct (demo_total 3 10 0 [] [(100, "a", 1); (105, "b", 2); (110, "c", 3)])
    as (s & Hs); [lia..|].
  pose proof (demo_wf _ _ _ _ _ _ Hs) as (Hwf & _).
  pose proof (demo_keys s Hs) as Horder.
  exists s. split; [exact Hs|]. split; [exact Hwf|]. split; [exact Horder|].
  exact (Clear_spec ["a"; "b"; "c"] s Hwf Horder).
Defined.

Lemma Keys_OrderedKeys_witness :
  ∃ s,
    demo 3 10 0 [] [(100, "a", 1); (105, "b", 2); (110, "c", 3)] = Some s
    ∧ wf s
    ∧ ["a"; "b"; "c"] ≡ₚ elements (dom (items (cache s)))
    ∧ ∃ ordered,
        Keys ["a"; "b"; "c"] s = Some (Ok ["a"; "b"; "c"], s)
        ∧ OrderedKeys s = Some (Ok ordered, s)
        ∧ ordered ≡ₚ ["a"; "b"; "c"]
        ∧ NoDup ordered
        ∧ Len s = Some (Z.of_nat (length ordered), s)
        ∧ ∀ k, Has k s = Some (bool_decide (k ∈ ordered), s).
Proof.
  destruct (demo_total 3 10 0 [] [(100, "a", 1); (105, "b", 2); (110, "c", 3)])
    as (s & Hs); [lia..|].
  pose proof (demo_wf _ _ _ _ _ _ Hs) as (Hwf & _).
  pose proof (demo_keys s Hs) as Horder.
  exists s. split; [exact Hs|]. split; [exact Hwf|]. split; [exact Horder|].
  exact (Keys_OrderedKeys ["a"; "b"; "c"] s Hwf Horder).
Defined.

Lemma Has_Peek_agree_witness :
  ∃ s,
    demo 3 10 0 [] [(100, "a", 1); (105, "b", 2); (110, "c", 3)] = Some s
    ∧ wf s
    ∧ ∃ b r, Has "a" s = Some (b, s) ∧ Peek "a" s = Some (r, s)
        ∧ r.2 = b
        ∧ (b = true ↔ "a" ∈ dom (items (cache s)))
        ∧ match entryOf "a" s with
          | Some ent => b = true ∧ r.1 = value ent
          | None => b = false ∧ r.1 = zero
          end.
Proof.
  destruct (demo_total 3 10 0 [] [(100, "a", 1); (105, "b", 2); (110, "c", 3)])
    as (s & Hs); [lia..|].
  pose proof (demo_wf _ _ _ _ _ _ Hs) as (Hwf & _).
  exists s. split; [exact Hs|]. split; [exact Hwf|].
  exact (Has_Peek_agree "a" s Hwf).
Defined.

Lemma Get_spec_witness :
  ∃ s,
    demo 3 10 0 [] [(100, "a", 1); (105, "b", 2); (110, "c", 3)] = Some s
    ∧ wf s ∧ 0 ≤ maxAge (cache s)
    ∧ counters_of (cache s) = [3; 0; 0; 0; 0]
    ∧ (∃ s', Get 115 "a" s = Some ((0, false), s') ∧ wf s'
         ∧ entryOf "a" s' = None
         ∧ counters_of (cache s') = [3; 1; 0; 1; 0])
    ∧ (∃ v s', Get 115 "b" s = Some ((v, true), s') ∧ wf s'
         ∧ entryOf "b" s' = entryOf "b" s
         ∧ world s' = world s
         ∧ counters_of (cache s') = [3; 1; 1; 0; 0]).
Proof.
  destruct (demo_total 3 10 0 [] [(100, "a", 1); (105, "b", 2); (110, "c", 3)])
    as (s & Hs); [lia..|].
  pose proof (demo_wf _ _ _ _ _ _ Hs) as (Hwf & _).
  assert (maxAge (cache s) = 10) as Hmax.
  { apply (observe (λ s, maxAge (cache s)) _ _ _ Hs). vm_compute. reflexivity. }
  assert (0 ≤ maxAge (cache s)) as Hage by lia.
  assert (entryOf "a" s
          = Some {| key := "a"; value := 1; timestamp := 100 |}) as Henta.
  { apply (observe (λ s, entryOf "a" s) _ _ _ Hs). vm_compute. reflexivity. }
  assert (entryOf "b" s
          = Some {| key := "b"; value := 2; timestamp := 105 |}) as Hentb.
  { apply (observe (λ s, entryOf "b" s) _ _ _ Hs). vm_compute. reflexivity. }
  assert (counters_of (cache s) = [3; 0; 0; 0; 0]) as Hcnt.
  { apply (observe (λ s, counters_of (cache s)) _ _ _ Hs).
    vm_compute. reflexivity. }
  exists s. split; [exact Hs|]. split; [exact Hwf|]. split; [exact Hage|].
  split; [exact Hcnt|].
  unfold counters_of in Hcnt. injection Hcnt as Hs0 Hg0 Hh0 Hm0 He0.
  split.
  - destruct (Get_spec 115 "a" s Hwf Hage)
      as ([v found] & s' & Hrun & Hwf' & Hfound & Hres & Hcnt' & _).
    cbn in Hfound, Hres, Hcnt'.
    destruct found.
    { destruct Hfound as [Hfound _].
      destruct (Hfound eq_refl) as (ent & Hent & Hfresh).
      rewrite Henta in Hent. injection Hent as <-.
      destruct Hfresh. unfold expired. rewrite Hmax. by vm_compute. }
    destruct Hres as [-> Hgone].
    exists s'. split; [exact Hrun|]. split; [exact Hwf'|].
    split; [exact Hgone|].
    rewrite Hcnt', Hs0, Hg0, Hh0, Hm0, He0. reflexivity.
  - destruct (Get_spec 115 "b" s Hwf Hage)
      as ([v found] & s' & Hrun & Hwf' & Hfound & Hres & Hcnt' & _).
    cbn in Hfound, Hres, Hcnt'.
    destruct found; cycle 1.
    { destruct Hfound as [_ Hfound].
      assert (false = true) as Hno; [|discriminate Hno].
      apply Hfound.
      exists {| key := "b"; value := 2; timestamp := 105 |}.
      split; [exact Hentb|].
      unfold expired. rewrite Hmax. vm_compute. by intros [_ ?]. }
    destruct Hres as [Hsame Hw].
    exists v, s'. split; [exact Hrun|]. split; [exact Hwf'|].
    split; [exact Hsame|]. split; [exact Hw|].
    rewrite Hcnt', Hs0, Hg0, Hh0, Hm0, He0. reflexivity.
Defined.

Lemma Set_order_witness :
  ∃ s,
    demo 3 10 0 [] [(100, "a", 1); (105, "b", 2); (110, "c", 3)] = Some s
    ∧ wf s ∧ 0 < capacity (cache s)
    ∧ Len_of (cache s) ≤ capacity (cache s)
    ∧ entryKeys s = ["c"; "b"; "a"]
    ∧ sets (cache s) = 3
    ∧ ∃ b s', Set_ 120 "d" 4 s = Some (b, s') ∧ wf s'
        ∧ entryKeys s' = ["d"; "c"; "b"]
        ∧ Peek "d" s' = Some ((4, true), s')
        ∧ sets (cache s') = 4.
Proof.
  destruct (demo_total 3 10 0 [] [(100, "a", 1); (105, "b", 2); (110, "c", 3)])
    as (s & Hs); [lia..|].
  pose proof (demo_wf _ _ _ _ _ _ Hs) as (Hwf & Hcap & Hc).
  assert (Len_of (cache s) = 3) as Hlen.
  { apply (observe (λ s, Len_of (cache s)) _ _ _ Hs). vm_compute. reflexivity. }
  assert (entryKeys s = ["c"; "b"; "a"]) as Hek.
  { apply (observe (λ s, entryKeys s) _ _ _ Hs). vm_compute. reflexivity. }
  assert (sets (cache s) = 3) as Hsets.
  { apply (observe (λ s, sets (cache s)) _ _ _ Hs). vm_compute. reflexivity. }
  assert (Len_of (cache s) ≤ capacity (cache s)) as Hle by lia.
  exists s. split; [exact Hs|]. split; [exact Hwf|]. split; [exact Hcap|].
  split; [exact Hle|]. split; [exact Hek|]. split; [exact Hsets|].
  destruct (Set_order 120 "d" 4 s Hwf Hcap Hle)
    as (b & s' & Hrun & Hwf' & Hek' & _ & Hpeek & _ & Hsets' & _).
  exists b, s'. split; [exact Hrun|]. split; [exact Hwf'|].
  split; [rewrite Hek', Hek, Hc; reflexivity|].
  split; [exact Hpeek|].
  rewrite Hsets', Hsets. reflexivity.
Defined.


Lemma reachable_settings_witness :
  ∃ s,
    reachable (demo_config 2 0 0) [] [] s
    ∧ 0 < capacity (cache s) ∧ 0 ≤ minAge (cache s) ≤ maxAge (cache s)
    ∧ (minAge (cache s) ≠ maxAge (cache s) →
       0 < maxAge (cache s) - minAge (cache s)).
Proof.
  destruct (New_total (R := list Z) (demo_config 2 0 0) [])
    as (c & Hnew); [done..|].
  pose proof (reachable_New _ _ [] c Hnew) as H0.
  destruct (reachable_extend _ _ _ (OpSet 1 "a" 1) _ H0 I) as (s1 & _ & H1).
  destruct (reachable_extend _ _ _ (OpSetMaxAge 20) _ H1 I) as (s2 & _ & H2).
  destruct (reachable_extend _ _ _ (OpSetMinAge 30) _ H2 I) as (s3 & _ & H3).
  destruct (reachable_extend _ _ _ (OpSetMinAge 7) _ H3 I) as (s4 & _ & H4).
  destruct (reachable_extend _ _ _ (OpResize (-1)) _ H4 I) as (s5 & _ & H5).
  destruct (reachable_extend _ _ _ (OpResize 5) _ H5 I) as (s6 & _ & H6).
  exists s6. split; [exact H6|].
  exact (reachable_settings _ _ _ _ H6).
Defined.

Lemma expiration_stays_on_witness :
  ∃ s,
    reachable (demo_config 2 10 0) [] [] s
    ∧ 0 < MaxAge (demo_config 2 10 0)
    ∧ 0 < minAge (cache s) ≤ maxAge (cache s)
    ∧ ∃ msg, SetMaxAge 0 s = Some (Some msg, s).
Proof.
  destruct (New_total (R := list Z) (demo_config 2 10 0) [])
    as (c & Hnew); [cbn; lia..|].
  pose proof (reachable_New _ _ [] c Hnew) as H0.
  destruct (reachable_extend _ _ _ (OpSet 1 "a" 1) _ H0 I) as (s1 & _ & H1).
  destruct (reachable_extend _ _ _ (OpSetMinAge 3) _ H1 I) as (s2 & _ & H2).
  destruct (reachable_extend _ _ _ (OpSetMaxAge 0) _ H2 I) as (s3 & _ & H3).
  destruct (reachable_extend _ _ _ (OpSetMaxAge 30) _ H3 I) as (s4 & _ & H4).
  assert (0 < MaxAge (demo_config 2 10 0)) as Hpos by (cbn; lia).
  exists s4. split; [exact H4|]. split; [exact Hpos|].
  exact (expiration_stays_on _ _ _ _ H4 Hpos).
Defined.

Lemma Stats_gets_are_hits_and_misses_witness :
  ∃ s,
    reachable (demo_config 2 10 0) [] [] s
    ∧ ∃ st, Cache_Stats s = Some (st, s)
        ∧ Stats.Gets st = add64 (Stats.Hits st) (Stats.Misses st)
        ∧ Len s = Some (Stats.Count st, s)
        ∧ Stats.Capacity st = capacity (cache s).
Proof.
  destruct (New_total (R := list Z) (demo_config 2 10 0) [])
    as (c & Hnew); [cbn; lia..|].
  pose proof (reachable_New _ _ [] c Hnew) as H0.
  destruct (reachable_extend _ _ _ (OpSet 1 "a" 1) _ H0 I) as (s1 & _ & H1).
  destruct (reachable_extend _ _ _ (OpGet 2 "a") _ H1 I) as (s2 & _ & H2).
  destruct (reachable_extend _ _ _ (OpGet 3 "z") _ H2 I) as (s3 & _ & H3).
  destruct (reachable_extend _ _ _ (OpGet 20 "a") _ H3 I) as (s4 & _ & H4).
  exists s4. split; [exact H4|].
  exact (Stats_gets_are_hits_and_misses _ _ _ _ H4).
Defined.

Lemma Resize_within_witness :
  ∃ s,
    demo 3 10 0 [] [(100, "a", 1); (105, "b", 2); (110, "c", 3)] = Some s
    ∧ wf s ∧ 0 < 2 ≤ maxInt64 ∧ 0 < capacity (cache s) ≤ maxInt64
    ∧ Len_of (cache s) ≤ capacity (cache s)
    ∧ entryKeys s = ["c"; "b"; "a"]
    ∧ ∃ s', Resize 2 s = Some (None, s') ∧ wf s'
        ∧ capacity (cache s') = 2
        ∧ Len_of (cache s') ≤ 2
        ∧ entryKeys s' = ["c"; "b"].
Proof.
  destruct (demo_total 3 10 0 [] [(100, "a", 1); (105, "b", 2); (110, "c", 3)])
    as (s & Hs); [lia..|].
  pose proof (demo_wf _ _ _ _ _ _ Hs) as (Hwf & Hcap & Hc).
  assert (Len_of (cache s) = 3) as Hlen.
  { apply (observe (λ s, Len_of (cache s)) _ _ _ Hs). vm_compute. reflexivity. }
  assert (entryKeys s = ["c"; "b"; "a"]) as Hek.
  { apply (observe (λ s, entryKeys s) _ _ _ Hs). vm_compute. reflexivity. }
  assert (0 < 2 ≤ maxInt64) as Hn by (unfold maxInt64; lia).
  assert (0 < capacity (cache s) ≤ maxInt64) as Hcap'
    by (unfold maxInt64; lia).
  assert (Len_of (cache s) ≤ capacity (cache s)) as Hle by lia.
  exists s. split; [exact Hs|]. split; [exact Hwf|]. split; [exact Hn|].
  split; [exact Hcap'|]. split; [exact Hle|]. split; [exact Hek|].
  destruct (Resize_within 2 s Hwf Hn Hcap' Hle)
    as (s' & Hrun & Hwf' & Hc' & Hlen' & Hek' & _).
  exists s'. split; [exact Hrun|]. split; [exact Hwf'|].
  split; [exact Hc'|]. split; [exact Hlen'|].
  rewrite Hek', Hek, Hc. reflexivity.
Defined.

Lemma Stats_count_within_capacity_witness :
  ∃ s,
    reachable_int (demo_config 2 10 0) [] [] s
    ∧ ∃ st, Cache_Stats s = Some (st, s)
        ∧ 0 ≤ Stats.Count st ≤ Stats.Capacity st
        ∧ Stats.Capacity st ≤ maxInt64.
Proof.
  destruct (New_total (R := list Z) (demo_config 2 10 0) [])
    as (c & Hnew); [cbn; lia..|].
  assert (Capacity (demo_config 2 10 0) ≤ maxInt64) as Hcap
    by (unfold maxInt64; cbn; lia).
  assert (1 ≤ maxInt64) as Hone by (unfold maxInt64; lia).
  pose proof (reachable_int_New _ _ [] c Hcap Hnew) as H0.
  destruct (reachable_int_extend _ _ _ (OpSet 1 "a" 1) _ H0 I I)
    as (s1 & _ & H1).
  destruct (reachable_int_extend _ _ _ (OpSet 2 "b" 2) _ H1 I I)
    as (s2 & _ & H2).
  destruct (reachable_int_extend _ _ _ (OpSet 3 "c" 3) _ H2 I I)
    as (s3 & _ & H3).
  destruct (reachable_int_extend _ _ _ (OpResize 1) _ H3 I Hone)
    as (s4 & _ & H4).
  destruct (reachable_int_extend _ _ _ (OpSet 4 "d" 4) _ H4 I I)
    as (s5 & _ & H5).
  exists s5. split; [exact H5|].
  exact (Stats_count_within_capacity _ _ _ _ H5).
Defined.

Lemma deleteExpired_sweep_witness :
  ∃ s,
    demo 3 10 0 [] [(100, "a", 1); (105, "b", 2); (110, "c", 3)] = Some s
    ∧ wf s
    ∧ ["a"; "b"; "c"] ≡ₚ elements (dom (items (cache s)))
    ∧ expirations s (λ i, 112 + Z.of_nat i) 0 ["a"; "b"; "c"] = [("a", 1)]
    ∧ ∃ s', deleteExpired ["a"; "b"; "c"] (λ i, 112 + Z.of_nat i) s
            = Some (Ok (), s')
        ∧ wf s'
        ∧ world s' = world s ++ [Expired "a" 1]
        ∧ entryKeys s'
          = filter (λ x, x ∈ dom (items (cache s'))) (entryKeys s)
        ∧ counters_of (cache s') = counters_of (cache s)
        ∧ settings_of (cache s') = settings_of (cache s).
Proof.
  destruct (demo_total 3 10 0 [] [(100, "a", 1); (105, "b", 2); (110, "c", 3)])
    as (s & Hs); [lia..|].
  pose proof (demo_wf _ _ _ _ _ _ Hs) as (Hwf & _).
  pose proof (demo_keys s Hs) as Horder.
  assert (expirations s (λ i, 112 + Z.of_nat i) 0 ["a"; "b"; "c"]
          = [("a", 1)]) as Hexp.
  { apply (observe
             (λ s, expirations s (λ i, 112 + Z.of_nat i) 0 ["a"; "b"; "c"])
             _ _ _ Hs).
    vm_compute. reflexivity. }
  assert (onExpiration (cache s) = Some (λ k v w, w ++ [Expired k v]))
    as Hcb.
  { apply (observe (λ s, onExpiration (cache s)) _ _ _ Hs).
    vm_compute. reflexivity. }
  exists s. split; [exact Hs|]. split; [exact Hwf|]. split; [exact Horder|].
  split; [exact Hexp|].
  destruct (deleteExpired_sweep ["a"; "b"; "c"] (λ i, 112 + Z.of_nat i) s
              Hwf Horder)
    as (s' & Hrun & Hwf' & _ & _ & Hek & Hw & Hcnt & Hset).
  exists s'. split; [exact Hrun|]. split; [exact Hwf'|].
  split; [|split; [exact Hek|split; [exact Hcnt|exact Hset]]].
  rewrite Hw, Hexp, Hcb. reflexivity.
Defined.

Lemma used_key_survives_eviction_witness :
  ∃ s s1,
    demo 3 10 0 [] [(100, "a", 1); (105, "b", 2)] = Some s
    ∧ wf s ∧ 0 < capacity (cache s)
    ∧ Len_of (cache s) ≤ capacity (cache s)
    ∧ ((∃ v, Get 110 "c" s = Some ((v, true), s1))
       ∨ (∃ v b, Set_ 110 "c" v s = Some (b, s1)))
    ∧ 1 < Len_of (cache s1)
    ∧ ∃ s2, EvictOldest s1 = Some (true, s2)
        ∧ Has "c" s2 = Some (true, s2)
        ∧ entryOf "c" s2 = entryOf "c" s1
        ∧ Len_of (cache s2) = Len_of (cache s1) - 1.
Proof.
  destruct (demo_total 3 10 0 [] [(100, "a", 1); (105, "b", 2)])
    as (s & Hs); [lia..|].
  pose proof (demo_wf _ _ _ _ _ _ Hs) as (Hwf & Hcap & Hc).
  assert (Len_of (cache s) = 2) as Hlen.
  { apply (observe (λ s, Len_of (cache s)) _ _ _ Hs). vm_compute. reflexivity. }
  assert (entryKeys s = ["b"; "a"]) as Hek.
  { apply (observe (λ s, entryKeys s) _ _ _ Hs). vm_compute. reflexivity. }
  assert (Len_of (cache s) ≤ capacity (cache s)) as Hle by lia.
  destruct (Set_reorders 110 "c" 3 s Hwf Hcap Hle)
    as (b & s1 & Hrun & Hwf1 & Hek1 & _).
  assert (1 < Len_of (cache s1)) as Hmany.
  { unfold Len_of, List_Len. rewrite <- (wf_entryKeys_length s1 Hwf1).
    rewrite Hek1, Hek, Hc. vm_compute. reflexivity. }
  assert ((∃ v, Get 110 "c" s = Some ((v, true), s1))
          ∨ (∃ v b, Set_ 110 "c" v s = Some (b, s1))) as Hused.
  { right. exists 3, b. exact Hrun. }
  exists s, s1. split; [exact Hs|]. split; [exact Hwf|]. split; [exact Hcap|].
  split; [exact Hle|]. split; [exact Hused|]. split; [exact Hmany|].
  exact (used_key_survives_eviction 110 "c" s s1 Hwf Hcap Hle Hused Hmany).
Defined.


Lemma late_MaxAge_jitters_witness :
  ∃ c,
    New (demo_config 2 0 0) [7] = Ok c
    ∧ MaxAge (demo_config 2 0 0) = 0
    ∧ 0 < 10 ≤ maxInt64
    ∧ rand_in_range [7]
    ∧ ∃ s1, SetMaxAge 10 (start c []) = Some (None, s1)
        ∧ minAge (cache s1) = 0 ∧ maxAge (cache s1) = 10
        ∧ ∃ b s2 ent r,
            Set_ 100 "a" 1 s1 = Some (b, s2)
            ∧ entryOf "a" s2 = Some ent
            ∧ r = (Int63n [7] 10).1
            ∧ 0 ≤ r < 10
            ∧ timestamp ent = 100 - r.
Proof.
  destruct (New_total (R := list Z) (demo_config 2 0 0) [7])
    as (c & Hnew); [done..|].
  assert (0 < 10 ≤ maxInt64) as Hd by (unfold maxInt64; lia).
  exists c. split; [exact Hnew|]. split; [reflexivity|]. split; [exact Hd|].
  split; [exact (replay_in_range [7])|].
  exact (late_MaxAge_jitters (demo_config 2 0 0) [7] [] c 10 100 "a" 1
           Hnew eq_refl Hd (replay_in_range [7])).
Defined.

